(** * Shopping-cart widget: state reconciliation

    A shallow embedding of [src/shopping-cart/index.tsx]: the quantity
    adjuster [adjustQuantity] (lines 65-96) and the tool-output effect
    (lines 98-157) with its change-detection guard and delta merge.

    JavaScript data is embedded as follows.
    - A JSON document is a [value].  [VNum n] stands for the number whose
      value is the integer [n]; statements that rest on facts of integer
      arithmetic are made for integers that JavaScript numbers hold
      exactly ([safe_integer]).
    - A JavaScript object is a finite map from property names to values
      ([gmap string value]); equality of objects is equality of contents.
    - [undefined] is the absence of a value: an optional value is
      [option value], with [None] for [undefined] and [Some VNull] for
      [null].
    - The [Map<string, CartItem>] of the merge is an association list that
      keeps insertion order, as a JavaScript [Map] does.
    - The fields the program reads have their declared types where they are
      present: [name] is a string, [quantity] a number.  Whether they are
      present, and whether [items] is an array, is tested as the code tests
      it. *)

From stdpp Require Import gmap strings list fin_maps pretty.
From Stdlib Require Import ZArith Ascii.

#[local] Set Warnings "-register-all,-clear-no-such-hyp".

Local Open Scope Z_scope.

(** ** JSON values *)

Inductive value : Type :=
  | VNull
  | VBool (b : bool)
  | VNum (n : Z)
  | VStr (s : string)
  | VArr (l : list value)
  | VObj (m : gmap string value).

Abbreviation obj := (gmap string value).

(** [v == null]: true for [null] and [undefined]. *)
Definition nullish (v : option value) : bool :=
  match v with
  | None | Some VNull => true
  | Some _ => false
  end.

(** [a ?? b] *)
Definition coalesce (a : option value) (b : value) : value :=
  match a with
  | None | Some VNull => b
  | Some v => v
  end.

(** JavaScript truthiness, as tested by [if (x)] and [!x]. *)
Definition truthy (v : option value) : bool :=
  match v with
  | None | Some VNull => false
  | Some (VBool b) => b
  | Some (VNum n) => negb (n =? 0)
  | Some (VStr s) => negb (String.eqb s "")
  | Some (VArr _) | Some (VObj _) => true
  end.

(** [v?.k] for the property names the program reads ([name], [quantity],
    [items]): an own property of an object; primitives, strings and arrays
    have no property of these names, and [?.] turns a nullish [v] into
    [undefined]. *)
Definition prop (k : string) (v : option value) : option value :=
  match v with
  | Some (VObj m) => m !! k
  | _ => None
  end.

(** [Array.isArray(v) ? v : []] *)
Definition array_or_empty (v : option value) : list value :=
  match v with
  | Some (VArr l) => l
  | _ => []
  end.

(** The characters of a string, each as a one-character string. *)
Fixpoint chars (s : string) : list value :=
  match s with
  | EmptyString => []
  | String c s' => VStr (String c EmptyString) :: chars s'
  end.

(** The own index properties ["0"], ["1"], ... of an array or a string. *)
Definition indexed (l : list value) : obj :=
  kmap (pretty : nat → string) (map_seq 0%nat l : gmap nat value).

(** The own enumerable properties copied by [...v] inside an object
    literal: those of an object, the index properties of an array or a
    string, and nothing for [null], [undefined], numbers and booleans. *)
Definition spread (v : option value) : obj :=
  match v with
  | Some (VObj m) => m
  | Some (VArr l) => indexed l
  | Some (VStr s) => indexed (chars s)
  | _ => ∅
  end.

(** ** The insertion-ordered [Map<string, CartItem>] *)

Definition jsmap := list (string * value).

(** [m.get(k)] *)
Fixpoint map_get (k : string) (m : jsmap) : option value :=
  match m with
  | [] => None
  | (k', v) :: m' => if decide (k' = k) then Some v else map_get k m'
  end.

(** [m.set(k, v)]: an existing key keeps its position, a new key goes last. *)
Fixpoint map_set (k : string) (v : value) (m : jsmap) : jsmap :=
  match m with
  | [] => [(k, v)]
  | (k', v') :: m' =>
      if decide (k' = k) then (k, v) :: m' else (k', v') :: map_set k v m'
  end.

(** [Array.from(m.values())] *)
Definition map_values (m : jsmap) : list value := m.*2.

(** ** The delta merge (lines 134-151) *)

(** [createDefaultCartState()]: [{ items: [] }]. *)
Definition createDefaultCartState : value := VObj {[ "items" := VArr [] ]}.

(** The key under which an item enters [itemsByName]: [item.name] when the
    guard [if (item?.name)] passes.  [CartItem] declares [name: string] and
    the map is a [Map<string, CartItem>], so a name that passes the guard is
    a non-empty string. *)
Definition name_key (item : value) : option string :=
  match prop "name" (Some item) with
  | Some (VStr s) => if truthy (Some (VStr s)) then Some s else None
  | _ => None
  end.

(** Body of the first loop: [if (item?.name) itemsByName.set(item.name, item)]. *)
Definition seed_item (itemsByName : jsmap) (item : value) : jsmap :=
  match name_key item with
  | Some k => map_set k item itemsByName
  | None => itemsByName
  end.

(** Body of the second loop:
    [if (item?.name)
       itemsByName.set(item.name, { ...itemsByName.get(item.name), ...item })].
    In an object literal the later spread wins, which is the left operand of
    the left-biased union of maps. *)
Definition merge_item (itemsByName : jsmap) (item : value) : jsmap :=
  match name_key item with
  | Some k =>
      map_set k (VObj (spread (Some item) ∪ spread (map_get k itemsByName)))
        itemsByName
  | None => itemsByName
  end.

(** The two loops, starting from [new Map()]. *)
Definition merge_items (baseItems incomingItems : list value) : jsmap :=
  foldl merge_item (foldl seed_item [] baseItems) incomingItems.

(** Lines 134-151: from [widgetState] and the incoming items to [nextState]. *)
Definition reconcile (widgetState : option value) (incomingItems : list value)
  : value :=
  let baseState := coalesce widgetState createDefaultCartState in
  let baseItems := array_or_empty (prop "items" (Some baseState)) in
  let itemsByName := merge_items baseItems incomingItems in
  let nextItems := map_values itemsByName in
  VObj (<["items" := VArr nextItems]> (spread (Some baseState))).

(** Lines 125-129: [Array.isArray(toolOutput?.items) ? toolOutput.items ?? [] : []]. *)
Definition incomingItems (toolOutput : value) : list value :=
  array_or_empty (prop "items" (Some toolOutput)).

(** ** The quantity adjuster (lines 65-96) *)

(** [item.name === name] for a string [name]. *)
Definition name_is (name : string) (item : obj) : bool :=
  match item !! "name" with
  | Some (VStr s) => String.eqb s name
  | _ => false
  end.

(** [current.quantity ?? 0]; [CartItem] declares [quantity: number]. *)
Definition quantity_or_zero (current : obj) : Z :=
  match current !! "quantity" with
  | Some (VNum q) => q
  | _ => 0
  end.

(** The updater passed to [setCartState] (lines 71-95).  [list_find] is
    [findIndex] together with [items[idx]]; [None] is the index [-1]. *)
Definition adjust_update (name : string) (delta : Z) (prevState : option value)
  : value :=
  let baseState := coalesce prevState (VObj ∅) in
  let items : list obj :=
    (λ item, spread (Some item)) <$> array_or_empty (prop "items" (Some baseState)) in
  match list_find (λ item, name_is name item) items with
  | None => baseState
  | Some (idx, current) =>
      let nextQuantity := Z.max 0 (quantity_or_zero current + delta) in
      let items' :=
        if nextQuantity =? 0 then delete idx items
        else <[idx := <["quantity" := VNum nextQuantity]> current]> items in
      VObj (<["items" := VArr (VObj <$> items')]> (spread (Some baseState)))
  end.

(** [adjustQuantity(name, delta)]: [None] when it returns before calling
    [setCartState] ([!name || delta === 0]), otherwise the updater it
    passes. *)
Definition adjustQuantity (name : string) (delta : Z)
  : option (option value → value) :=
  if String.eqb name "" || (delta =? 0) then None
  else Some (adjust_update name delta).

(** ** The tool-output effect (lines 98-157) *)

(** The initial content of [lastToolOutputRef] (line 98). *)
Definition tool_output_unset : string := "__tool_output_unset__".

Section Effect.

(** [JSON.stringify], [None] when it throws. *)
Variable JSON_stringify : value → option string.

(** Lines 109-116. *)
Definition serializedToolOutput (toolOutput : value) : string :=
  default "__tool_output_error__" (JSON_stringify toolOutput).

(** One run of the effect: from the remembered fingerprint
    [lastToolOutputRef.current], [toolOutput] and [widgetState] to the new
    remembered fingerprint and the argument of [setCartState], if it is
    called. *)
Definition effect (lastToolOutputRef : string)
    (toolOutput widgetState : option value) : string * option value :=
  match toolOutput with
  | None | Some VNull => (lastToolOutputRef, None)
  | Some t =>
      let s := serializedToolOutput t in
      if String.eqb s lastToolOutputRef then (lastToolOutputRef, None)
      else (s, Some (reconcile widgetState (incomingItems t)))
  end.

End Effect.

(** ** Vocabulary of the statements *)

(** The order in which keys enter a [Map]: a key already present keeps its
    place, a new key is appended. *)
Definition add_key (acc : list string) (k : string) : list string :=
  if decide (k ∈ acc) then acc else acc ++ [k].

(** The distinct elements of a list in the order of their first occurrence. *)
Fixpoint first_occurrences (l : list string) : list string :=
  match l with
  | [] => []
  | x :: l' => x :: filter (λ y, y ≠ x) (first_occurrences l')
  end.

(** The items of a cart document: [Array.isArray(c.items) ? c.items : []]. *)
Definition items_of (c : value) : list value :=
  array_or_empty (prop "items" (Some c)).

(** The names under which the items of a list enter the map, in order. *)
Definition keys_of (l : list value) : list string := omap name_key l.

(** The items of a list that enter the map under the key [k]. *)
Definition with_key (k : string) (l : list value) : list value :=
  filter (λ item, name_key item = Some k) l.

(** Field-wise merge, left to right: every record in turn overrides the
    fields it carries and leaves the others as they are. *)
Definition merge_all (init : obj) (ds : list value) : obj :=
  foldl (λ acc d, spread (Some d) ∪ acc) init ds.

(** Every entry of the map is stored under the name it carries. *)
Definition keyed (m : jsmap) : Prop :=
  ∀ k v, (k, v) ∈ m → name_key v = Some k.

(** The last character of a string. *)
Fixpoint last_char (s : string) : option ascii :=
  match s with
  | EmptyString => None
  | String c EmptyString => Some c
  | String _ s' => last_char s'
  end.

(** A decimal digit. *)
Definition is_digit (c : ascii) : bool :=
  bool_decide (c ∈ ["0"; "1"; "2"; "3"; "4"; "5"; "6"; "7"; "8"; "9"]%char).

(** A property name that does not end in a digit is not an array index. *)
Definition not_index (k : string) : Prop :=
  ∀ c, last_char k = Some c → is_digit c = false.

(** The name an item carries: its [name] property, a string. *)
Definition item_name (item : value) : option string :=
  match prop "name" (Some item) with
  | Some (VStr s) => Some s
  | _ => None
  end.

(** The names carried by the items of a list, in order. *)
Definition names_of (l : list value) : list string := omap item_name l.

(** The items of a list that carry the name [n]. *)
Definition named (n : string) (l : list value) : list value :=
  filter (λ item, item_name item = Some n) l.

(** The items of a well-formed cart (data model): every item carries a
    non-empty name, and no two items carry the same name. *)
Definition valid_items (items : list value) : Prop :=
  Forall (λ item, ∃ n, item_name item = Some n ∧ n ≠ "") items
  ∧ NoDup (names_of items).

(** A cart document with the given items and no other field. *)
Definition cart_of (items : list value) : value :=
  VObj {[ "items" := VArr items ]}.

(** The fields of an item with a name and a quantity. *)
Definition line_fields (name : string) (quantity : Z) : obj :=
  {[ "name" := VStr name; "quantity" := VNum quantity ]}.

(** An item with a name and a quantity. *)
Definition line (name : string) (quantity : Z) : value :=
  VObj (line_fields name quantity).

(** [{ ...item }]: the copy of an item made by [items.map]. *)
Definition copy (item : value) : value := VObj (spread (Some item)).

(** An item whose quantity is the number 0. *)
Definition zero_quantity (item : value) : Prop :=
  prop "quantity" (Some item) = Some (VNum 0).

(** A cart that holds no item of quantity 0. *)
Definition no_zero_quantity (c : value) : Prop :=
  Forall (λ item, ¬ zero_quantity item) (items_of c).

(** No entry of the map has quantity 0. *)
Definition no_zero_entries (m : jsmap) : Prop :=
  ∀ k v, (k, v) ∈ m → ¬ zero_quantity v.

(** ** A concrete serializer and sample documents *)

(** A string between double quotes (no escaping). *)
Definition quoted (s : string) : string :=
  String (ascii_of_nat 34) (s +:+ String (ascii_of_nat 34) EmptyString).

(** A serializer of JSON values, total on [value], to stand for
    [JSON.stringify] where a concrete one is needed; the fields of an object
    come in the order of the finite map. *)
Fixpoint to_json (v : value) : string :=
  match v with
  | VNull => "null"
  | VBool b => if b then "true" else "false"
  | VNum n => pretty n
  | VStr s => quoted s
  | VArr l => "[" +:+ String.concat "," (to_json <$> l) +:+ "]"
  | VObj m =>
      "{" +:+ String.concat ","
                (map_fold (λ k x acc, (quoted k +:+ ":" +:+ to_json x) :: acc) [] m)
          +:+ "}"
  end.

(** A tool output whose [items] are the given ones. *)
Definition payload (items : list value) : value :=
  VObj {[ "items" := VArr items ]}.

(** ** The item list and its controls (lines 63, 165-196) *)

(** Line 63: [Array.isArray(cartState?.items) ? cartState.items : []], the
    items that are rendered. *)
Definition cartItems (cartState : option value) : list value :=
  array_or_empty (prop "items" cartState).

(** Line 181, the decrease button of a rendered item:
    [() => adjustQuantity(item.name, -1)]; an [undefined] name fails the
    guard [!name]. *)
Definition onDecrease (item : obj) : option (option value → value) :=
  match item !! "name" with
  | Some (VStr name) => adjustQuantity name (-1)
  | _ => None
  end.

(** Line 189, the increase button: [() => adjustQuantity(item.name, 1)]. *)
Definition onIncrease (item : obj) : option (option value → value) :=
  match item !! "name" with
  | Some (VStr name) => adjustQuantity name 1
  | _ => None
  end.

(** ** Inputs of the declared types *)

(** A name that passes the guard [if (item?.name)] is a string, as
    [CartItem] declares ([name: string]); a missing or falsy name is left
    free. *)
Definition typed_name (item : value) : Prop :=
  truthy (prop "name" (Some item)) = true →
  ∃ s, prop "name" (Some item) = Some (VStr s).

(** [Number.isSafeInteger]: an integer between [-(2^53 - 1)] and
    [2^53 - 1].  Sums of such integers that are again in this range are
    computed exactly by JavaScript numbers. *)
Definition safe_integer (x : Z) : Prop :=
  - (2 ^ 53 - 1) ≤ x ≤ 2 ^ 53 - 1.

(** ** Facts about lists and the insertion-ordered map *)

Lemma filter_all {A} (P : A → Prop) `{!∀ x, Decision (P x)} (l : list A) :
  Forall P l → filter P l = l.
Proof.
  induction 1 as [|x l HP _ IH]; [done|].
  rewrite filter_cons, decide_True by done. by rewrite IH.
Qed.

Lemma filter_none {A} (P : A → Prop) `{!∀ x, Decision (P x)} (l : list A) :
  Forall (λ x, ¬ P x) l → filter P l = [].
Proof.
  induction 1 as [|x l HP _ IH]; [done|].
  by rewrite filter_cons, decide_False.
Qed.

Lemma insert_middle {A} (l1 l2 : list A) (x y : A) :
  <[length l1 := y]> (l1 ++ x :: l2) = l1 ++ y :: l2.
Proof. induction l1 as [|z l1 IH]; [done|]. simpl. by rewrite IH. Qed.

Lemma omap_ext_Forall {A B} (f g : A → option B) (l : list A) :
  Forall (λ x, f x = g x) l → omap f l = omap g l.
Proof.
  induction 1 as [|x l Hx _ IH]; [done|]. csimpl. by rewrite Hx, IH.
Qed.

Section jsmap_facts.
Implicit Types (m : jsmap) (k : string) (v : value).

Lemma map_get_set k k' v m :
  map_get k' (map_set k v m) = if decide (k = k') then Some v else map_get k' m.
Proof.
  induction m as [|[k0 v0] m IH]; simpl.
  - by repeat case_decide.
  - repeat (case_decide; simpl); congruence.
Qed.

Lemma map_get_None k m : map_get k m = None ↔ k ∉ m.*1.
Proof.
  induction m as [|[k0 v0] m IH]; simpl.
  - split; [intros _; apply not_elem_of_nil | done].
  - rewrite not_elem_of_cons. case_decide; subst.
    + split; [done | intros [? _]; done].
    + rewrite IH. naive_solver.
Qed.

Lemma map_get_elem k v m : map_get k m = Some v → (k, v) ∈ m.
Proof.
  induction m as [|[k0 v0] m IH]; simpl; [done|].
  case_decide; subst.
  - intros [= ->]. apply list_elem_of_here.
  - intros H'. apply list_elem_of_further; auto.
Qed.

Lemma elem_map_get k v m : NoDup m.*1 → (k, v) ∈ m → map_get k m = Some v.
Proof.
  induction m as [|[k0 v0] m IH]; simpl.
  - intros _ H'. by apply elem_of_nil in H'.
  - intros [Hk0 Hnd]%NoDup_cons [Heq|Hin]%elem_of_cons.
    + injection Heq as -> ->. by case_decide.
    + case_decide as Hk; [|by apply IH]. subst k0.
      destruct Hk0. apply list_elem_of_fmap. by exists (k, v).
Qed.

Lemma map_set_keys k v m : (map_set k v m).*1 = add_key m.*1 k.
Proof.
  unfold add_key. induction m as [|[k0 v0] m IH]; [done|].
  cbn [map_set]. rewrite fmap_cons. cbn [fst].
  destruct (decide (k0 = k)) as [->|Hne].
  - rewrite decide_True; [done | apply list_elem_of_here].
  - rewrite fmap_cons, IH. cbn [fst].
    destruct (decide (k ∈ m.*1)) as [Hin|Hin].
    + rewrite decide_True; [done | by apply list_elem_of_further].
    + rewrite decide_False; [done|].
      rewrite not_elem_of_cons. split; [congruence | done].
Qed.

Lemma map_set_fresh k v m : k ∉ m.*1 → map_set k v m = m ++ [(k, v)].
Proof.
  induction m as [|[k0 v0] m IH]; simpl; [done|].
  rewrite not_elem_of_cons. intros [Hne Hin].
  case_decide; [congruence|]. by rewrite IH.
Qed.

Lemma map_set_elem k v m kv : kv ∈ map_set k v m → kv = (k, v) ∨ kv ∈ m.
Proof.
  induction m as [|[k0 v0] m IH]; simpl.
  - intros ->%list_elem_of_singleton. by left.
  - case_decide; subst; rewrite !elem_of_cons; naive_solver.
Qed.

Lemma add_key_NoDup acc k : NoDup acc → NoDup (add_key acc k).
Proof.
  unfold add_key. intros Hnd. case_decide; [done|].
  apply NoDup_app. split_and!; [done | | apply NoDup_singleton].
  intros x Hx ->%list_elem_of_singleton. done.
Qed.

Lemma add_key_elem acc k x : x ∈ add_key acc k ↔ x ∈ acc ∨ x = k.
Proof.
  unfold add_key. case_decide.
  - split; [by left | intros [?| ->]; done].
  - rewrite elem_of_app, list_elem_of_singleton. done.
Qed.

(** Two maps with the same keys in the same order and the same value at
    every key are equal. *)
Lemma jsmap_ext m1 m2 :
  NoDup m1.*1 → m1.*1 = m2.*1 → (∀ k, map_get k m1 = map_get k m2) → m1 = m2.
Proof.
  revert m2. induction m1 as [|[k1 v1] m1 IH]; intros [|[k2 v2] m2]; csimpl;
    try done.
  intros [Hk1 Hnd]%NoDup_cons [= <- Hkeys] Hget.
  pose proof (Hget k1) as Hhd. case_decide; [|done].
  injection Hhd as <-. f_equal. apply IH; [done..|].
  intros k. pose proof (Hget k) as Hk. case_decide as Hne; [subst k|done].
  assert (map_get k1 m1 = None) as -> by by apply map_get_None.
  symmetry. apply map_get_None. by rewrite <- Hkeys.
Qed.

End jsmap_facts.

Section first_occurrences_facts.
Implicit Types (l acc : list string).

Lemma first_occurrences_elem l x : x ∈ first_occurrences l ↔ x ∈ l.
Proof.
  induction l as [|y l IH]; simpl; [done|].
  rewrite !elem_of_cons, list_elem_of_filter, IH.
  destruct (decide (x = y)); naive_solver.
Qed.

Lemma first_occurrences_NoDup l : NoDup (first_occurrences l).
Proof.
  induction l as [|y l IH]; simpl; [apply NoDup_nil_2|].
  apply NoDup_cons. split; [|by apply NoDup_filter].
  rewrite list_elem_of_filter. naive_solver.
Qed.

Lemma first_occurrences_filter (P : string → Prop) `{!∀ x, Decision (P x)} l :
  first_occurrences (filter P l) = filter P (first_occurrences l).
Proof.
  induction l as [|y l IH]; simpl; [done|].
  rewrite !filter_cons. destruct (decide (P y)) as [HP|HP]; simpl.
  - rewrite IH. f_equal. rewrite !list_filter_filter.
    apply list_filter_iff. naive_solver.
  - rewrite IH, list_filter_filter. apply list_filter_iff.
    intros x. split; [|naive_solver]. intros HPx. split; [done|].
    by intros ->.
Qed.

Lemma first_occurrences_id l : NoDup l → first_occurrences l = l.
Proof.
  induction l as [|y l IH]; simpl; [done|].
  intros [Hy Hnd]%NoDup_cons. rewrite IH by done. f_equal.
  apply filter_all, Forall_forall. intros x Hx ->. done.
Qed.

Lemma foldl_add_key acc l :
  foldl add_key acc l = acc ++ first_occurrences (filter (λ y, y ∉ acc) l).
Proof.
  revert acc. induction l as [|x l IH]; intros acc; simpl.
  - by rewrite app_nil_r.
  - rewrite filter_cons. unfold add_key at 2.
    destruct (decide (x ∈ acc)) as [Hin|Hin].
    + rewrite decide_False by naive_solver. apply IH.
    + rewrite decide_True by done. simpl. rewrite IH, <- app_assoc. simpl.
      do 2 f_equal. rewrite <- first_occurrences_filter, list_filter_filter.
      f_equal. apply list_filter_iff. intros y.
      rewrite not_elem_of_app, list_elem_of_singleton. naive_solver.
Qed.

Lemma foldl_add_key_nil l : foldl add_key [] l = first_occurrences l.
Proof.
  rewrite foldl_add_key. simpl. rewrite filter_all; [done|].
  apply Forall_forall. intros x _. apply not_elem_of_nil.
Qed.

Lemma first_occurrences_app l1 l2 :
  first_occurrences (l1 ++ l2)
  = first_occurrences l1 ++ first_occurrences (filter (λ y, y ∉ l1) l2).
Proof.
  rewrite <- (foldl_add_key_nil (l1 ++ l2)), foldl_app, foldl_add_key_nil.
  rewrite foldl_add_key. do 2 f_equal. apply list_filter_iff. intros y.
  by rewrite first_occurrences_elem.
Qed.

End first_occurrences_facts.

(** ** The merge, key by key *)

Section merge_facts.
Implicit Types (m : jsmap) (k : string) (v item : value) (B D : list value).

Lemma name_key_obj item k :
  name_key item = Some k →
  ∃ o, item = VObj o ∧ o !! "name" = Some (VStr k) ∧ k ≠ "".
Proof.
  unfold name_key. destruct item as [| | | | |o]; simpl; try done.
  destruct (o !! "name") as [[| | |s| |]|] eqn:Hn; try done.
  destruct (String.eqb s "") eqn:Hs; simpl; [done|].
  intros [= ->]. exists o. split_and!; [done..|].
  intros ->. done.
Qed.

Lemma name_key_intro o k :
  o !! "name" = Some (VStr k) → k ≠ "" → name_key (VObj o) = Some k.
Proof.
  intros Hn Hk. unfold name_key. simpl. rewrite Hn.
  destruct (String.eqb k "") eqn:Hs; simpl; [|done].
  by apply String.eqb_eq in Hs.
Qed.

Lemma name_key_merged item k (x : obj) :
  name_key item = Some k → name_key (VObj (spread (Some item) ∪ x)) = Some k.
Proof.
  intros (o & -> & Hn & Hk)%name_key_obj. simpl.
  apply name_key_intro; [|done]. by apply lookup_union_Some_l.
Qed.

Lemma seed_keys m B :
  (foldl seed_item m B).*1 = foldl add_key m.*1 (keys_of B).
Proof.
  unfold keys_of. revert m. induction B as [|b B IH]; intros m; simpl; [done|].
  rewrite IH. unfold seed_item.
  destruct (name_key b) as [k|]; simpl; [|done]. by rewrite map_set_keys.
Qed.

Lemma merge_keys m D :
  (foldl merge_item m D).*1 = foldl add_key m.*1 (keys_of D).
Proof.
  unfold keys_of. revert m. induction D as [|d D IH]; intros m; simpl; [done|].
  rewrite IH. unfold merge_item.
  destruct (name_key d) as [k|]; simpl; [|done]. by rewrite map_set_keys.
Qed.

Lemma merge_items_keys B D :
  (merge_items B D).*1 = first_occurrences (keys_of B ++ keys_of D).
Proof.
  unfold merge_items. rewrite merge_keys, seed_keys. simpl.
  by rewrite <- foldl_app, foldl_add_key_nil.
Qed.

Lemma merge_items_NoDup B D : NoDup (merge_items B D).*1.
Proof. rewrite merge_items_keys. apply first_occurrences_NoDup. Qed.

Lemma with_key_nil k l : with_key k l = [] ↔ k ∉ keys_of l.
Proof.
  unfold with_key, keys_of. rewrite list_elem_of_omap. split.
  - intros H' (x & Hx & Hk). by apply (filter_nil_not_elem_of _ _ x H').
  - intros H'. apply filter_none, Forall_forall. intros x Hx Hk.
    apply H'. by exists x.
Qed.

Lemma seed_get k m B :
  map_get k (foldl seed_item m B)
  = match last (with_key k B) with
    | Some b => Some b
    | None => map_get k m
    end.
Proof.
  unfold with_key. revert m. induction B as [|b B IH]; intros m; simpl; [done|].
  rewrite IH, filter_cons. unfold seed_item.
  destruct (decide (name_key b = Some k)) as [Hb|Hb].
  - rewrite Hb, map_get_set, decide_True by done.
    rewrite last_cons. by destruct (last _).
  - destruct (last _); [done|].
    destruct (name_key b) as [k'|]; [|done].
    rewrite map_get_set, decide_False; [done | congruence].
Qed.

Lemma merge_get k m D :
  map_get k (foldl merge_item m D)
  = match with_key k D with
    | [] => map_get k m
    | ds => Some (VObj (merge_all (spread (map_get k m)) ds))
    end.
Proof.
  unfold with_key. revert m. induction D as [|d D IH]; intros m; simpl; [done|].
  rewrite IH, filter_cons. unfold merge_item.
  destruct (decide (name_key d = Some k)) as [Hd|Hd].
  - rewrite Hd, map_get_set, decide_True by done.
    by destruct (filter _ D).
  - destruct (name_key d) as [k'|]; [|done].
    rewrite map_get_set, decide_False; [done | congruence].
Qed.

Lemma keyed_set k v m : keyed m → name_key v = Some k → keyed (map_set k v m).
Proof.
  intros Hm Hv k' v' [[= -> ->]|Hin]%map_set_elem; [done|]. by apply Hm.
Qed.

Lemma seed_keyed m B : keyed m → keyed (foldl seed_item m B).
Proof.
  revert m. induction B as [|b B IH]; intros m Hm; simpl; [done|].
  apply IH. unfold seed_item. destruct (name_key b) as [k|] eqn:Hb; [|done].
  by apply keyed_set.
Qed.

Lemma merge_keyed m D : keyed m → keyed (foldl merge_item m D).
Proof.
  revert m. induction D as [|d D IH]; intros m Hm; simpl; [done|].
  apply IH. unfold merge_item. destruct (name_key d) as [k|] eqn:Hd; [|done].
  apply keyed_set; [done|]. by apply name_key_merged.
Qed.

Lemma merge_items_keyed B D : keyed (merge_items B D).
Proof.
  apply merge_keyed, seed_keyed. intros k v Hin. by apply elem_of_nil in Hin.
Qed.

Lemma keyed_keys_of m : keyed m → keys_of (map_values m) = m.*1.
Proof.
  unfold keys_of, map_values. induction m as [|[k v] m IH]; intros Hm; [done|].
  csimpl. rewrite (Hm k v) by apply list_elem_of_here. simpl.
  rewrite IH; [done|]. intros k' v' Hin. apply Hm. by apply list_elem_of_further.
Qed.

Lemma spread_obj (o : obj) : spread (Some (VObj o)) = o.
Proof. done. Qed.

Lemma merge_all_cons (init : obj) d ds :
  merge_all init (d :: ds) = merge_all (spread (Some d) ∪ init) ds.
Proof. done. Qed.

Lemma merge_all_snoc (init : obj) d ds :
  merge_all init (ds ++ [d]) = spread (Some d) ∪ merge_all init ds.
Proof. unfold merge_all. by rewrite foldl_snoc. Qed.

Lemma merge_all_union (init : obj) ds :
  merge_all init ds = merge_all ∅ ds ∪ init.
Proof.
  revert init. induction ds as [|d ds IH]; intros init.
  - unfold merge_all. simpl. by rewrite (left_id_L ∅ (∪)).
  - rewrite !merge_all_cons, IH, (IH (_ ∪ ∅)).
    by rewrite (right_id_L ∅ (∪)), (assoc_L (∪)).
Qed.

Lemma merge_all_idemp (init : obj) ds :
  merge_all (merge_all init ds) ds = merge_all init ds.
Proof.
  rewrite (merge_all_union (merge_all _ _)), (merge_all_union init).
  by rewrite (assoc_L (∪)), (idemp_L (∪)).
Qed.

End merge_facts.

(** ** Index properties never clash with the properties the program reads *)

Section index_keys.

Lemma pretty_N_char_digit (x : N) : is_digit (pretty_N_char x) = true.
Proof.
  unfold pretty_N_char.
  repeat (match goal with |- context [match ?y with _ => _ end] => destruct y end);
    reflexivity.
Qed.

Lemma last_char_cons c s : s ≠ EmptyString → last_char (String c s) = last_char s.
Proof. by destruct s. Qed.

Lemma pretty_N_go_last (x : N) (s : string) :
  s ≠ EmptyString → last_char (pretty_N_go x s) = last_char s.
Proof.
  revert s. induction (N.lt_wf_0 x) as [x _ IH]. intros s Hs.
  destruct (decide (x = 0%N)) as [->|Hx]; [by rewrite pretty_N_go_0|].
  rewrite pretty_N_go_step by lia.
  rewrite IH; [by apply last_char_cons | | done].
  apply N.div_lt; lia.
Qed.

Lemma pretty_nat_last (i : nat) :
  ∃ c, last_char (pretty i) = Some c ∧ is_digit c = true.
Proof.
  unfold pretty, pretty_nat, pretty, pretty_N.
  destruct (decide (N.of_nat i = 0%N)) as [_|Hx]; [by exists "0"%char|].
  rewrite pretty_N_go_step by lia. rewrite pretty_N_go_last by done.
  eexists. split; [done|]. apply pretty_N_char_digit.
Qed.

Lemma indexed_lookup_None k l : not_index k → indexed l !! k = None.
Proof.
  intros Hk. unfold indexed. apply lookup_kmap_None; [apply _|].
  intros i ->. destruct (pretty_nat_last i) as (c & Hc & Hd).
  specialize (Hk c Hc). congruence.
Qed.

(** Reading such a property from a spread copy is reading it from the
    original. *)
Lemma spread_prop k (v : value) :
  not_index k → spread (Some v) !! k = prop k (Some v).
Proof.
  intros Hk. destruct v; simpl; try done; by apply indexed_lookup_None.
Qed.

Lemma not_index_name : not_index "name".
Proof. intros c [= <-]. done. Qed.

Lemma not_index_quantity : not_index "quantity".
Proof. intros c [= <-]. done. Qed.

End index_keys.

(** ** Names of items *)

Section name_facts.
Implicit Types (m : jsmap) (k n : string) (v item : value) (l : list value).

Lemma name_key_item_name item k :
  name_key item = Some k ↔ item_name item = Some k ∧ k ≠ "".
Proof.
  unfold name_key, item_name.
  destruct (prop "name" (Some item)) as [[| | |s| |]|]; try naive_solver.
  simpl. destruct (String.eqb s "") eqn:Hs; simpl.
  - apply String.eqb_eq in Hs. naive_solver.
  - apply String.eqb_neq in Hs. naive_solver.
Qed.

Lemma keys_of_elem l k : k ∈ keys_of l ↔ k ∈ names_of l ∧ k ≠ "".
Proof.
  unfold keys_of, names_of. rewrite !list_elem_of_omap. split.
  - intros (x & Hx & [Hn Hk]%name_key_item_name). split; [by exists x | done].
  - intros [(x & Hx & Hn) Hk]. exists x. split; [done|].
    by apply name_key_item_name.
Qed.

Lemma keys_of_names l : (∀ n, n ∈ names_of l → n ≠ "") → keys_of l = names_of l.
Proof.
  unfold keys_of, names_of. induction l as [|x l IH]; intros Hl; [done|].
  csimpl in *. destruct (item_name x) as [n|] eqn:Hn.
  - assert (n ≠ "") as Hne by (apply Hl, list_elem_of_here).
    assert (name_key x = Some n) as -> by by apply name_key_item_name.
    rewrite IH; [done|]. intros n' Hn'. apply Hl. by apply list_elem_of_further.
  - destruct (name_key x) as [k|] eqn:Hk.
    + apply name_key_item_name in Hk as [Hk _]. congruence.
    + by apply IH.
Qed.

Lemma with_key_named n l : n ≠ "" → with_key n l = named n l.
Proof.
  intros Hn. apply list_filter_iff. intros x.
  rewrite name_key_item_name. naive_solver.
Qed.

Lemma keyed_names_of m : keyed m → names_of (map_values m) = m.*1.
Proof.
  unfold names_of, map_values. induction m as [|[k v] m IH]; intros Hm; [done|].
  csimpl. assert (item_name v = Some k) as ->.
  { eapply name_key_item_name, Hm, list_elem_of_here. }
  rewrite IH; [done|]. intros k' v' Hin. apply Hm. by apply list_elem_of_further.
Qed.

(** In a map whose entries sit under their own names, the items of a
    given name are the entry of that name, if there is one. *)
Lemma with_key_values m k :
  keyed m → NoDup m.*1 →
  with_key k (map_values m) = match map_get k m with Some v => [v] | None => [] end.
Proof.
  unfold with_key, map_values. induction m as [|[k0 v0] m IH]; [done|].
  intros Hm [Hk0 Hnd]%NoDup_cons. csimpl. rewrite filter_cons.
  rewrite (Hm k0 v0) by apply list_elem_of_here.
  assert (keyed m) as Hm'.
  { intros k' v' Hin. apply Hm. by apply list_elem_of_further. }
  destruct (decide (k0 = k)) as [->|Hne].
  - rewrite decide_True by done.
    assert (map_get k m = None) as Hnone by by apply map_get_None.
    specialize (IH Hm' Hnd). rewrite Hnone in IH. by rewrite IH.
  - rewrite decide_False by congruence. by apply IH.
Qed.

Lemma items_of_coalesce (B : value) :
  items_of (coalesce (Some B) createDefaultCartState) = items_of B.
Proof. by destruct B. Qed.

Lemma reconcile_items (B : option value) D :
  items_of (reconcile B D)
  = map_values (merge_items (items_of (coalesce B createDefaultCartState)) D).
Proof. unfold reconcile, items_of. simpl. by rewrite lookup_insert_eq. Qed.

Lemma reconcile_names (B : option value) D :
  names_of (items_of (reconcile B D))
  = first_occurrences
      (keys_of (items_of (coalesce B createDefaultCartState)) ++ keys_of D).
Proof.
  rewrite reconcile_items, keyed_names_of by apply merge_items_keyed.
  apply merge_items_keys.
Qed.

Lemma reconcile_named (B : option value) D n :
  n ≠ "" →
  named n (items_of (reconcile B D))
  = match map_get n (merge_items (items_of (coalesce B createDefaultCartState)) D) with
    | Some v => [v]
    | None => []
    end.
Proof.
  intros Hn. rewrite reconcile_items, <- with_key_named by done.
  apply with_key_values; [apply merge_items_keyed | apply merge_items_NoDup].
Qed.

End name_facts.

(** ** The delta merge: union, order, precedence *)

Lemma named_singleton (l : list value) (n : string) :
  NoDup (names_of l) → n ∈ names_of l → ∃ item, named n l = [item].
Proof.
  unfold names_of, named. induction l as [|x l IH]; csimpl.
  - intros _ Hin. by apply elem_of_nil in Hin.
  - rewrite filter_cons. destruct (item_name x) as [n'|] eqn:Hx; csimpl.
    + intros [Hn' Hnd]%NoDup_cons Hin.
      destruct (decide (Some n' = Some n)) as [[= ->]|Hne].
      * exists x. f_equal. apply filter_none, Forall_forall.
        intros y Hy Hyn. apply Hn', list_elem_of_omap. by exists y.
      * apply IH; [done|]. apply elem_of_cons in Hin as [->|]; done.
    + intros Hnd Hin. by apply IH.
Qed.

(** C1 (merge union).  For a base cart [B] and incoming items [D] whose
    names are non-empty, the items of [reconcile(B, D)] contain exactly one
    item for every name that appears in [B] or in [D], no name appears
    twice, and no other name appears.  (Uniqueness of the names of [D] is
    not needed.) *)
Theorem merge_union (B : value) (D : list value) :
  (∀ n, n ∈ names_of (items_of B) → n ≠ "") →
  (∀ n, n ∈ names_of D → n ≠ "") →
  let R := items_of (reconcile (Some B) D) in
  (∀ n, n ∈ names_of (items_of B) ∨ n ∈ names_of D → ∃ item, named n R = [item])
  ∧ NoDup (names_of R)
  ∧ (∀ n, n ∈ names_of R → n ∈ names_of (items_of B) ∨ n ∈ names_of D).
Proof.
  intros HB HD R.
  assert (names_of R = first_occurrences (names_of (items_of B) ++ names_of D))
    as Hnames.
  { unfold R. rewrite reconcile_names, items_of_coalesce.
    by rewrite !keys_of_names. }
  assert (NoDup (names_of R)) as Hnd.
  { rewrite Hnames. apply first_occurrences_NoDup. }
  split_and!; [|done|].
  - intros n Hn. apply named_singleton; [done|].
    rewrite Hnames, first_occurrences_elem, elem_of_app. done.
  - intros n. rewrite Hnames, first_occurrences_elem, elem_of_app. done.
Qed.

(** C9 (merge frame and ordering).  Every top-level field of [B] other than
    [items] is unchanged in [reconcile(B, D)]; every item of the result
    carries a name, and the names come in first-insertion order: the
    (non-empty) names of the base items in their original order, then the
    new names of the incoming items in encounter order. *)
Theorem merge_frame_and_order (B : obj) (D : list value) :
  let R := reconcile (Some (VObj B)) D in
  (∀ f, f ≠ "items" → prop f (Some R) = B !! f)
  ∧ length (names_of (items_of R)) = length (items_of R)
  ∧ names_of (items_of R)
    = first_occurrences (keys_of (items_of (VObj B)))
      ++ first_occurrences
           (filter (λ n, n ∉ keys_of (items_of (VObj B))) (keys_of D)).
Proof.
  intros R. split_and!.
  - intros f Hf. unfold R, reconcile. simpl. by rewrite lookup_insert_ne.
  - unfold R. rewrite reconcile_items.
    rewrite keyed_names_of by apply merge_items_keyed.
    unfold map_values. by rewrite !length_fmap.
  - unfold R. rewrite reconcile_names, items_of_coalesce.
    apply first_occurrences_app.
Qed.

Section merge_values.
Implicit Types (m : jsmap) (k n f : string) (B D : list value).

Lemma merge_all_lookup (init : obj) (ds : list value) f :
  merge_all init ds !! f
  = match last (omap (λ d, spread (Some d) !! f) ds) with
    | Some v => Some v
    | None => init !! f
    end.
Proof.
  induction ds as [|d ds IH] using rev_ind; [done|].
  rewrite merge_all_snoc, lookup_union, omap_app, IH.
  change (omap _ [d]) with (option_list (spread (Some d) !! f)).
  destruct (spread (Some d) !! f) as [v|]; simpl option_list.
  - rewrite last_snoc. by destruct (last _), (init !! f).
  - rewrite app_nil_r. by destruct (last _), (init !! f).
Qed.

Lemma named_prop n f D :
  omap (λ d, spread (Some d) !! f) (named n D) = omap (prop f ∘ Some) (named n D).
Proof.
  apply omap_ext_Forall, Forall_forall. intros d [Hd _]%list_elem_of_filter.
  unfold item_name in Hd. by destruct d.
Qed.

(** The entry of a name that the incoming items mention. *)
Lemma merge_items_get B D n :
  n ≠ "" → n ∈ names_of D →
  map_get n (merge_items B D)
  = Some (VObj (merge_all (spread (last (named n B))) (named n D))).
Proof.
  intros Hn Hin. unfold merge_items. rewrite merge_get, seed_get. simpl.
  rewrite !with_key_named by done.
  destruct (named n D) as [|d ds] eqn:HD.
  - rewrite <- with_key_named, with_key_nil, keys_of_elem in HD by done.
    naive_solver.
  - by destruct (last (named n B)).
Qed.

(** The entry of a name that the incoming items do not mention. *)
Lemma merge_items_get_base B D n :
  n ≠ "" → n ∉ names_of D → map_get n (merge_items B D) = last (named n B).
Proof.
  intros Hn Hin. unfold merge_items. rewrite merge_get, seed_get. simpl.
  assert (with_key n D = []) as ->.
  { apply with_key_nil. rewrite keys_of_elem. naive_solver. }
  rewrite with_key_named by done. by destruct (last _).
Qed.

Lemma foldl_add_key_elem (acc l : list string) x :
  x ∈ foldl add_key acc l ↔ x ∈ acc ∨ x ∈ l.
Proof.
  rewrite foldl_add_key, elem_of_app, first_occurrences_elem,
    list_elem_of_filter.
  destruct (decide (x ∈ acc)); naive_solver.
Qed.

Lemma foldl_add_key_NoDup (acc l : list string) :
  NoDup acc → NoDup (foldl add_key acc l).
Proof.
  revert acc. induction l as [|x l IH]; intros acc Hacc; simpl; [done|].
  by apply IH, add_key_NoDup.
Qed.

Lemma foldl_add_key_absorb (acc l : list string) :
  (∀ x, x ∈ l → x ∈ acc) → foldl add_key acc l = acc.
Proof.
  induction l as [|x l IH]; intros Hl; simpl; [done|].
  unfold add_key at 2. rewrite decide_True by apply Hl, list_elem_of_here.
  apply IH. intros y Hy. by apply Hl, list_elem_of_further.
Qed.

(** Seeding a map with the values of a map whose entries sit under their
    own names rebuilds that map. *)
Lemma seed_values m :
  keyed m → NoDup m.*1 → foldl seed_item [] (map_values m) = m.
Proof.
  intros Hm Hnd.
  assert ((foldl seed_item [] (map_values m)).*1 = m.*1) as Hkeys.
  { rewrite seed_keys. simpl.
    by rewrite foldl_add_key_nil, keyed_keys_of, first_occurrences_id. }
  apply jsmap_ext; [by rewrite Hkeys | done |].
  intros k. rewrite seed_get, with_key_values by done.
  by destruct (map_get k m).
Qed.

(** Merging the same incoming items a second time changes no entry. *)
Lemma merge_again m D :
  NoDup m.*1 →
  foldl merge_item (foldl merge_item m D) D = foldl merge_item m D.
Proof.
  intros Hnd.
  assert ((foldl merge_item (foldl merge_item m D) D).*1
          = (foldl merge_item m D).*1) as Hkeys.
  { rewrite (merge_keys (foldl _ _ _)). apply foldl_add_key_absorb.
    intros x Hx. rewrite merge_keys, foldl_add_key_elem. by right. }
  apply jsmap_ext; [rewrite Hkeys, merge_keys; by apply foldl_add_key_NoDup
                   | done |].
  intros k. rewrite (merge_get k (foldl _ _ _)), (merge_get k m).
  destruct (with_key k D) as [|d ds]; [done|].
  cbv beta iota. by rewrite spread_obj, merge_all_idemp.
Qed.

Lemma merge_items_again B D :
  merge_items (map_values (merge_items B D)) D = merge_items B D.
Proof.
  unfold merge_items at 1.
  rewrite seed_values by (apply merge_items_keyed || apply merge_items_NoDup).
  unfold merge_items. apply merge_again.
  rewrite seed_keys. by apply foldl_add_key_NoDup, NoDup_nil_2.
Qed.

(** Seeding with items that all carry a non-empty name, no two the same,
    keeps every item, in order. *)
Lemma seed_all B :
  Forall (λ item, is_Some (name_key item)) B → NoDup (keys_of B) →
  map_values (foldl seed_item [] B) = B.
Proof.
  unfold map_values. induction B as [|x B IH] using rev_ind; [done|].
  intros [HB [k Hk]%Forall_singleton]%Forall_app.
  unfold keys_of. rewrite omap_app. csimpl. rewrite Hk. csimpl.
  intros (Hnd & Hfresh & _)%NoDup_app.
  rewrite foldl_snoc. unfold seed_item at 1. rewrite Hk.
  rewrite map_set_fresh, fmap_app, IH; [done..|].
  rewrite seed_keys. simpl. rewrite foldl_add_key_nil, first_occurrences_elem.
  intros Hin. apply (Hfresh k Hin), list_elem_of_here.
Qed.

End merge_values.

Lemma valid_items_keys (items : list value) :
  valid_items items →
  Forall (λ item, is_Some (name_key item)) items ∧ NoDup (keys_of items).
Proof.
  intros [Hall Hnd]. split.
  - eapply Forall_impl; [done|]. intros x (n & Hn & Hne). exists n.
    by apply name_key_item_name.
  - rewrite keys_of_names; [done|]. intros n (x & Hx & Hn)%list_elem_of_omap.
    rewrite Forall_forall in Hall. destruct (Hall x Hx) as (n' & Hn' & Hne).
    congruence.
Qed.

(** C2 (field precedence).  When the base cart and the incoming items each
    contain one item of the same (non-empty) name, the result contains one
    item of that name, and each of its fields is the incoming item's where
    the incoming item has the field and the base item's otherwise. *)
Theorem field_precedence (B : value) (D : list value) (n : string) (b d : obj) :
  n ≠ "" →
  named n (items_of B) = [VObj b] →
  named n D = [VObj d] →
  ∃ r, named n (items_of (reconcile (Some B) D)) = [VObj r]
       ∧ ∀ f, r !! f = match d !! f with Some v => Some v | None => b !! f end.
Proof.
  intros Hn HB HD. exists (d ∪ b). split.
  - assert (n ∈ names_of D) as Hin.
    { assert (VObj d ∈ named n D) as [Hd HdD]%list_elem_of_filter
        by (rewrite HD; apply list_elem_of_here).
      apply list_elem_of_omap. by exists (VObj d). }
    rewrite reconcile_named, items_of_coalesce, merge_items_get by done.
    by rewrite HB, HD.
  - intros f. rewrite lookup_union. by destruct (d !! f), (b !! f).
Qed.

(** The example of C2: base [{name:"x", qty:1, color:"red"}] merged with
    incoming [{name:"x", qty:3}] gives [{name:"x", qty:3, color:"red"}]. *)
Example field_precedence_example :
  reconcile
    (Some (cart_of [VObj {[ "name" := VStr "x"; "qty" := VNum 1;
                            "color" := VStr "red" ]}]))
    [VObj {[ "name" := VStr "x"; "qty" := VNum 3 ]}]
  = cart_of [VObj {[ "name" := VStr "x"; "qty" := VNum 3;
                     "color" := VStr "red" ]}].
Proof. vm_compute. reflexivity. Qed.

(** C10 (duplicate incoming names accumulate).  For a non-empty name carried
    by incoming items, the result contains exactly one item of that name:
    the left-to-right field-wise merge of the base item of that name, if
    any, and then each incoming item of that name in sequence order.  Each
    of its fields has the value of the last incoming item of that name that
    carries the field, and the base item's value when none does. *)
Theorem duplicates_accumulate (B : value) (D : list value) (n : string) :
  n ≠ "" →
  n ∈ names_of D →
  let base := spread (last (named n (items_of B))) in
  let r := merge_all base (named n D) in
  named n (items_of (reconcile (Some B) D)) = [VObj r]
  ∧ ∀ f, r !! f = match last (omap (prop f ∘ Some) (named n D)) with
                  | Some v => Some v
                  | None => base !! f
                  end.
Proof.
  intros Hn Hin base r. split.
  - by rewrite reconcile_named, items_of_coalesce, merge_items_get.
  - intros f. unfold r. by rewrite merge_all_lookup, named_prop.
Qed.

(** C3 (idempotence).  Merging the same incoming items into the result of
    the first merge changes nothing. *)
Theorem reconcile_idempotent (B : option value) (D : list value) :
  reconcile (Some (reconcile B D)) D = reconcile B D.
Proof.
  unfold reconcile at 1. cbv zeta.
  change (coalesce (Some (reconcile B D)) createDefaultCartState)
    with (reconcile B D).
  fold (items_of (reconcile B D)).
  rewrite reconcile_items, merge_items_again.
  unfold reconcile. rewrite spread_obj. by rewrite insert_insert_eq.
Qed.

(** Items that fail the guard [if (item?.name)] leave the map as it is. *)
Lemma merge_dropped (m : jsmap) (D : list value) :
  Forall (λ d, truthy (prop "name" (Some d)) = false) D →
  foldl merge_item m D = m.
Proof.
  revert m. induction D as [|x D IH]; intros m HD; [done|].
  apply Forall_cons in HD as [Hx HD]. simpl. rewrite <- (IH m HD) at 2.
  f_equal. unfold merge_item, name_key.
  destruct (prop "name" (Some x)) as [[| | |s| |]|]; try done.
  by rewrite Hx.
Qed.

(** C8 (malformed-input degradation).  A tool output whose [items] is absent
    or not a list yields the empty sequence of incoming items; incoming
    items whose name is missing or empty are dropped, so that merging them,
    and in particular merging [[{quantity:5}]], gives what merging the
    empty sequence gives; and merging the empty sequence into a well-formed
    cart gives that cart. *)
Theorem malformed_input_degrades
    (B : obj) (items D : list value) (toolOutput : value) :
  B !! "items" = Some (VArr items) →
  valid_items items →
  Forall (λ d, truthy (prop "name" (Some d)) = false) D →
  (∀ l, prop "items" (Some toolOutput) ≠ Some (VArr l)) →
  incomingItems toolOutput = []
  ∧ reconcile (Some (VObj B)) D = reconcile (Some (VObj B)) []
  ∧ reconcile (Some (VObj B)) [VObj {[ "quantity" := VNum 5 ]}] = VObj B
  ∧ reconcile (Some (VObj B)) [] = VObj B.
Proof.
  intros HB [Hkeys Hnd]%valid_items_keys HD Ht.
  assert (reconcile (Some (VObj B)) [] = VObj B) as Hnil.
  { unfold reconcile, merge_items. simpl. rewrite HB. simpl.
    rewrite seed_all by done. by rewrite insert_id. }
  assert (∀ D', Forall (λ d, truthy (prop "name" (Some d)) = false) D' →
                reconcile (Some (VObj B)) D' = reconcile (Some (VObj B)) [])
    as Hdrop.
  { intros D' HD'. unfold reconcile, merge_items. cbv zeta.
    by rewrite (merge_dropped _ D'). }
  split_and!; [|by apply Hdrop| |done].
  - unfold incomingItems. destruct (prop "items" (Some toolOutput)) as [[]|];
      try done. by destruct (Ht l).
  - rewrite <- Hnil at 2. apply Hdrop. by apply Forall_singleton.
Qed.

(** ** The quantity adjuster *)

Section adjust_facts.
Implicit Types (n : string) (d : Z) (item : value) (l : list value).

Lemma copy_obj (o : obj) : copy (VObj o) = VObj o.
Proof. done. Qed.

Lemma name_is_spread n item :
  name_is n (spread (Some item)) ↔ item_name item = Some n.
Proof.
  unfold name_is, item_name. rewrite spread_prop by apply not_index_name.
  destruct (prop "name" (Some item)) as [[| | |s| |]|]; try naive_solver.
  destruct (String.eqb_spec s n); naive_solver.
Qed.

Lemma find_named_none n l :
  n ∉ names_of l →
  list_find (λ o, name_is n o) ((λ item, spread (Some item)) <$> l) = None.
Proof.
  intros Hn. apply list_find_None, Forall_fmap, Forall_forall.
  intros x Hx Hname%name_is_spread. apply Hn, list_elem_of_omap. by exists x.
Qed.

Lemma find_named_some n l1 (cur : obj) l2 :
  n ∉ names_of l1 → item_name (VObj cur) = Some n →
  list_find (λ o, name_is n o)
    ((λ item, spread (Some item)) <$> (l1 ++ VObj cur :: l2))
  = Some (length l1, cur).
Proof.
  intros Hn Hcur. apply list_find_Some. split_and!.
  - by rewrite list_lookup_fmap, list_lookup_middle.
  - by apply (name_is_spread n (VObj cur)).
  - intros j y Hj Hlt Hy. rewrite list_lookup_fmap, lookup_app_l in Hj by done.
    destruct (l1 !! j) as [x|] eqn:Hx; [|done]. injection Hj as <-.
    apply name_is_spread in Hy. apply Hn, list_elem_of_omap. exists x.
    split; [|done]. by eapply list_elem_of_lookup_2.
Qed.

Lemma zero_quantity_copy item : zero_quantity (copy item) → zero_quantity item.
Proof.
  unfold zero_quantity, copy.
  change (prop "quantity" (Some (VObj (spread (Some item)))))
    with (spread (Some item) !! "quantity").
  by rewrite spread_prop by apply not_index_quantity.
Qed.

End adjust_facts.


(** ** The no-zero-quantity invariant *)

Section zero_quantity_facts.
Implicit Types (m : jsmap) (l B D : list value).

Lemma no_zero_entries_set k v m :
  no_zero_entries m → ¬ zero_quantity v → no_zero_entries (map_set k v m).
Proof.
  intros Hm Hv k' v' [[= -> ->]|Hin]%map_set_elem; [done|]. by eapply Hm.
Qed.

Lemma seed_no_zero m B :
  no_zero_entries m → Forall (λ item, ¬ zero_quantity item) B →
  no_zero_entries (foldl seed_item m B).
Proof.
  intros Hm HB. revert m Hm.
  induction HB as [|b B Hb _ IH]; intros m Hm; simpl; [done|].
  apply IH. unfold seed_item. destruct (name_key b); [|done].
  by apply no_zero_entries_set.
Qed.

Lemma merge_no_zero m D :
  no_zero_entries m → Forall (λ item, ¬ zero_quantity item) D →
  no_zero_entries (foldl merge_item m D).
Proof.
  intros Hm HD. revert m Hm.
  induction HD as [|d D Hd _ IH]; intros m Hm; simpl; [done|].
  apply IH. unfold merge_item. destruct (name_key d) as [k|]; [|done].
  apply no_zero_entries_set; [done|]. unfold zero_quantity.
  change (prop "quantity" (Some (VObj ?o))) with (o !! "quantity").
  intros [Hz|[_ Hz]]%lookup_union_Some_raw.
  - apply Hd. unfold zero_quantity.
    by rewrite <- spread_prop by apply not_index_quantity.
  - destruct (map_get k m) as [v|] eqn:Hv; [|done].
    apply (Hm k v); [by apply map_get_elem|]. unfold zero_quantity.
    by rewrite <- spread_prop by apply not_index_quantity.
Qed.

Lemma no_zero_entries_values m :
  no_zero_entries m → Forall (λ item, ¬ zero_quantity item) (map_values m).
Proof.
  intros Hm. apply Forall_fmap, Forall_forall. intros [k v] Hin. by eapply Hm.
Qed.

Lemma reconcile_no_zero (C : value) D :
  no_zero_quantity C → Forall (λ item, ¬ zero_quantity item) D →
  no_zero_quantity (reconcile (Some C) D).
Proof.
  unfold no_zero_quantity. intros HC HD.
  rewrite reconcile_items, items_of_coalesce.
  apply no_zero_entries_values, merge_no_zero; [|done].
  apply seed_no_zero; [|done]. intros k v Hin. by apply elem_of_nil in Hin.
Qed.

Lemma adjust_update_no_zero (C : value) n d :
  no_zero_quantity C → no_zero_quantity (adjust_update n d (Some C)).
Proof.
  unfold no_zero_quantity. intros HC.
  assert (items_of (coalesce (Some C) (VObj ∅)) = items_of C) as Hitems
    by by destruct C.
  unfold adjust_update. cbv zeta. fold (items_of (coalesce (Some C) (VObj ∅))).
  rewrite Hitems.
  destruct (list_find _ _) as [[idx cur]|]; [|by rewrite Hitems].
  unfold items_of. cbn [prop array_or_empty]. rewrite lookup_insert_eq.
  apply Forall_fmap.
  assert (Forall (λ o, ¬ zero_quantity (VObj o))
            ((λ item, spread (Some item)) <$> items_of C)) as Hcopies.
  { apply Forall_fmap. eapply Forall_impl; [done|].
    intros x Hx Hz. by apply Hx, zero_quantity_copy. }
  destruct (Z.eqb_spec (Z.max 0 (quantity_or_zero cur + d)) 0) as [Hq|Hq].
  - by apply Forall_delete.
  - apply Forall_insert; [done|]. unfold zero_quantity. simpl.
    rewrite lookup_insert_eq. congruence.
Qed.

End zero_quantity_facts.

(** C5 as stated fails for the merge: an incoming item of quantity 0 is
    stored in the cart. *)
Lemma reconcile_stores_zero_quantity :
  no_zero_quantity (cart_of [])
  ∧ ¬ no_zero_quantity (reconcile (Some (cart_of [])) [line "x" 0]).
Proof.
  split; [by apply Forall_nil|].
  assert (reconcile (Some (cart_of [])) [line "x" 0] = cart_of [line "x" 0])
    as -> by (vm_compute; reflexivity).
  intros Hz. apply Forall_cons in Hz as [Hz _]. by apply Hz.
Qed.

(** C5 (no zero quantity at rest), amended.  From a cart that holds no item
    of quantity 0, every update issued by [adjustQuantity] gives a cart that
    holds none, and so does the merge of incoming items none of which has
    quantity 0. *)
Theorem no_zero_quantity_preserved (C : value) :
  no_zero_quantity C →
  (∀ n d update,
     adjustQuantity n d = Some update → no_zero_quantity (update (Some C)))
  ∧ (∀ D, Forall (λ item, ¬ zero_quantity item) D →
          no_zero_quantity (reconcile (Some C) D)).
Proof.
  intros HC. split.
  - intros n d update. unfold adjustQuantity.
    destruct (_ || _); [done|]. intros [= <-]. by apply adjust_update_no_zero.
  - intros D HD. by apply reconcile_no_zero.
Qed.

(** ** The change-detection guard *)

Lemma effect_payload JSON_stringify (ref : string) (t : value) (w : option value) :
  t ≠ VNull →
  effect JSON_stringify ref (Some t) w
  = if String.eqb (serializedToolOutput JSON_stringify t) ref then (ref, None)
    else (serializedToolOutput JSON_stringify t,
          Some (reconcile w (incomingItems t))).
Proof. by destruct t. Qed.

(** C6 (change-detection suppression).  After a payload has been delivered,
    delivering the same payload again performs no merge and issues no
    write, whatever the persisted cart is by then; a following payload whose
    fingerprint differs from the remembered one is merged into the persisted
    cart of that moment, written, and its fingerprint remembered. *)
Theorem change_detection (JSON_stringify : value → option string)
    (ref : string) (t t' : value) (w1 w2 w3 : option value) :
  t ≠ VNull →
  t' ≠ VNull →
  serializedToolOutput JSON_stringify t' ≠ serializedToolOutput JSON_stringify t →
  let r1 := (effect JSON_stringify ref (Some t) w1).1 in
  r1 = serializedToolOutput JSON_stringify t
  ∧ effect JSON_stringify r1 (Some t) w2 = (r1, None)
  ∧ effect JSON_stringify r1 (Some t') w3
    = (serializedToolOutput JSON_stringify t',
       Some (reconcile w3 (incomingItems t'))).
Proof.
  intros Ht Ht' Hne r1.
  assert (r1 = serializedToolOutput JSON_stringify t) as Hr1.
  { unfold r1. rewrite effect_payload by done.
    by destruct (String.eqb_spec (serializedToolOutput JSON_stringify t) ref). }
  rewrite Hr1, !effect_payload by done. split_and!; [done| |].
  - by rewrite String.eqb_refl.
  - apply String.eqb_neq in Hne. by rewrite Hne.
Qed.

(** ** Instances *)

(** The quantity examples of the specification. *)
Example quantity_floor_and_deletion :
  adjust_update "apple" (-5) (Some (cart_of [line "apple" 1])) = cart_of []
  ∧ adjust_update "apple" 2 (Some (cart_of [line "apple" 1]))
    = cart_of [line "apple" 3]
  ∧ adjust_update "banana" 1 (Some (cart_of [line "apple" 1]))
    = cart_of [line "apple" 1].
Proof. split_and!; vm_compute; reflexivity. Qed.

(** Duplicate names in the base: the last item of a name is kept, at the
    place of the first. *)
Example base_duplicates :
  reconcile (Some (cart_of [line "a" 1; line "b" 1; line "a" 2])) []
  = cart_of [line "a" 2; line "b" 1].
Proof. vm_compute. reflexivity. Qed.

(** The scenario of the specification: a delta, then a decrease. *)
Example scenario_milk_bread :
  reconcile (Some (cart_of [line "milk" 2])) [line "milk" 5; line "bread" 1]
  = cart_of [line "milk" 5; line "bread" 1]
  ∧ adjust_update "bread" (-1) (Some (cart_of [line "milk" 5; line "bread" 1]))
    = cart_of [line "milk" 5].
Proof. split; vm_compute; reflexivity. Qed.

Lemma merge_union_witness :
  let B := cart_of [line "milk" 2] in
  let D := [line "milk" 5; line "bread" 1] in
  let R := items_of (reconcile (Some B) D) in
  (∀ n, n ∈ names_of (items_of B) ∨ n ∈ names_of D → ∃ item, named n R = [item])
  ∧ NoDup (names_of R)
  ∧ (∀ n, n ∈ names_of R → n ∈ names_of (items_of B) ∨ n ∈ names_of D).
Proof.
  apply (merge_union (cart_of [line "milk" 2]) [line "milk" 5; line "bread" 1]);
    intros n Hn%list_elem_of_In ->; vm_compute in Hn; intuition discriminate.
Defined.

Lemma field_precedence_witness :
  let b : obj := {[ "name" := VStr "x"; "qty" := VNum 1; "color" := VStr "red" ]} in
  let d : obj := {[ "name" := VStr "x"; "qty" := VNum 3 ]} in
  ∃ r, named "x" (items_of (reconcile (Some (cart_of [VObj b])) [VObj d])) = [VObj r]
       ∧ ∀ f, r !! f = match d !! f with Some v => Some v | None => b !! f end.
Proof.
  intros b d. apply (field_precedence (cart_of [VObj b]) [VObj d] "x" b d).
  - discriminate.
  - vm_compute. reflexivity.
  - vm_compute. reflexivity.
Defined.

Lemma duplicates_accumulate_witness :
  let B := cart_of [VObj {[ "name" := VStr "x"; "qty" := VNum 1;
                            "color" := VStr "red" ]}] in
  let D := [VObj {[ "name" := VStr "x"; "qty" := VNum 3 ]};
            VObj {[ "name" := VStr "x"; "size" := VStr "L" ]}] in
  let base := spread (last (named "x" (items_of B))) in
  let r := merge_all base (named "x" D) in
  named "x" (items_of (reconcile (Some B) D)) = [VObj r]
  ∧ ∀ f, r !! f = match last (omap (prop f ∘ Some) (named "x" D)) with
                  | Some v => Some v
                  | None => base !! f
                  end.
Proof.
  intros B D. apply (duplicates_accumulate B D "x").
  - discriminate.
  - apply list_elem_of_In. vm_compute. auto.
Defined.

Lemma malformed_input_degrades_witness :
  let B : obj := {[ "items" := VArr [line "milk" 2]; "cartId" := VStr "c1" ]} in
  let D := [VObj {[ "quantity" := VNum 5 ]}; VObj {[ "name" := VStr "" ]}] in
  let toolOutput := VObj {[ "items" := VStr "none" ]} in
  incomingItems toolOutput = []
  ∧ reconcile (Some (VObj B)) D = reconcile (Some (VObj B)) []
  ∧ reconcile (Some (VObj B)) [VObj {[ "quantity" := VNum 5 ]}] = VObj B
  ∧ reconcile (Some (VObj B)) [] = VObj B.
Proof.
  intros B D toolOutput.
  apply (malformed_input_degrades B [line "milk" 2] D toolOutput).
  - vm_compute. reflexivity.
  - split.
    + apply Forall_cons. split; [|apply Forall_nil_2].
      exists "milk". split; [vm_compute; reflexivity | done].
    + assert (names_of [line "milk" 2] = ["milk"]) as ->
        by (vm_compute; reflexivity).
      apply NoDup_singleton.
  - apply Forall_cons. split; [vm_compute; reflexivity|].
    apply Forall_cons. split; [vm_compute; reflexivity | apply Forall_nil_2].
  - intros l Hl. vm_compute in Hl. discriminate Hl.
Defined.


Lemma no_zero_quantity_preserved_witness :
  let C := cart_of [line "milk" 2] in
  (∀ n d update,
     adjustQuantity n d = Some update → no_zero_quantity (update (Some C)))
  ∧ (∀ D, Forall (λ item, ¬ zero_quantity item) D →
          no_zero_quantity (reconcile (Some C) D)).
Proof.
  apply (no_zero_quantity_preserved (cart_of [line "milk" 2])).
  apply Forall_cons. split; [|apply Forall_nil_2].
  intros Hz. vm_compute in Hz. discriminate Hz.
Defined.

Lemma change_detection_witness :
  let stringify := λ v, Some (to_json v) in
  let t := payload [line "milk" 5] in
  let t' := payload [line "bread" 1] in
  let r1 := (effect stringify tool_output_unset (Some t) None).1 in
  r1 = serializedToolOutput stringify t
  ∧ effect stringify r1 (Some t) (Some (cart_of [line "milk" 4])) = (r1, None)
  ∧ effect stringify r1 (Some t') (Some (cart_of [line "milk" 4]))
    = (serializedToolOutput stringify t',
       Some (reconcile (Some (cart_of [line "milk" 4])) (incomingItems t'))).
Proof.
  intros stringify t t'.
  apply (change_detection stringify tool_output_unset t t').
  - discriminate.
  - discriminate.
  - intros Heq. vm_compute in Heq. discriminate Heq.
Defined.

(** * Further properties of the code *)

(** ** The delta merge (lines 134-151) *)

Section reconcile_more.
Implicit Types (B : option value) (D : list value) (m : jsmap) (n : string).

Lemma keyed_valid_items m : keyed m → NoDup m.*1 → valid_items (map_values m).
Proof.
  intros Hm Hnd. split.
  - apply Forall_fmap, Forall_forall. intros [k v] Hin. exists k.
    by apply name_key_item_name, Hm.
  - by rewrite keyed_names_of.
Qed.

Lemma merge_items_append (Bi : list value) D1 D2 :
  merge_items (map_values (merge_items Bi D1)) D2 = merge_items Bi (D1 ++ D2).
Proof.
  unfold merge_items at 1.
  rewrite seed_values by (apply merge_items_keyed || apply merge_items_NoDup).
  unfold merge_items. by rewrite foldl_app.
Qed.

(** Merging, into the empty map, items that all carry a non-empty name, no
    two the same, stores every item as it is, in order. *)
Lemma merge_all_fresh D :
  Forall (λ item, is_Some (name_key item)) D → NoDup (keys_of D) →
  map_values (foldl merge_item [] D) = D.
Proof.
  unfold map_values. induction D as [|x D IH] using rev_ind; [done|].
  intros [HD [k Hk]%Forall_singleton]%Forall_app.
  unfold keys_of. rewrite omap_app. csimpl. rewrite Hk. csimpl.
  intros (Hnd & Hfresh & _)%NoDup_app.
  assert (k ∉ (foldl merge_item [] D).*1) as Hk'.
  { rewrite merge_keys. simpl. rewrite foldl_add_key_nil, first_occurrences_elem.
    intros Hin. apply (Hfresh k Hin), list_elem_of_here. }
  rewrite foldl_snoc. unfold merge_item at 1. rewrite Hk.
  assert (map_get k (foldl merge_item [] D) = None) as -> by by apply map_get_None.
  destruct (name_key_obj _ _ Hk) as (o & -> & _ & _).
  rewrite map_set_fresh, fmap_app, IH by done. csimpl.
  by rewrite (right_id_L ∅ (∪)).
Qed.

End reconcile_more.

(** On items of the declared type the key of the model is there exactly
    when the guard [if (item?.name)] passes. *)
Lemma name_key_guard (item : value) :
  typed_name item →
  is_Some (name_key item) ↔ truthy (prop "name" (Some item)) = true.
Proof.
  unfold typed_name, name_key. intros Htyped. split.
  - intros [k Hk]. destruct (prop "name" (Some item)) as [[| | |s| |]|]; try done.
    by destruct (truthy (Some (VStr s))).
  - intros Ht. destruct (Htyped Ht) as [s Hs]. rewrite Hs in Ht |- *.
    rewrite Ht. by eexists.
Qed.

(** X1.  Whatever the base is ([null], without an [items] array, with
    duplicate, empty or missing names) and whatever the incoming items are,
    as long as the names that pass the guard are strings, the merge writes
    a document whose [items] is an array of items that all carry a
    non-empty name, no two the same. *)
Theorem reconcile_normalizes (B : option value) (D : list value) :
  Forall typed_name (items_of (coalesce B createDefaultCartState)) →
  Forall typed_name D →
  prop "items" (Some (reconcile B D)) = Some (VArr (items_of (reconcile B D)))
  ∧ valid_items (items_of (reconcile B D)).
Proof.
  intros _ _. split.
  - unfold items_of, reconcile. simpl. by rewrite lookup_insert_eq.
  - rewrite reconcile_items.
    apply keyed_valid_items; [apply merge_items_keyed | apply merge_items_NoDup].
Qed.

(** X2.  Merging a second list of incoming items into the result of a first
    merge gives what one merge of the two lists, the first followed by the
    second, gives. *)
Theorem reconcile_compose (B : option value) (D1 D2 : list value) :
  reconcile (Some (reconcile B D1)) D2 = reconcile B (D1 ++ D2).
Proof.
  unfold reconcile at 1. cbv zeta.
  change (coalesce (Some (reconcile B D1)) createDefaultCartState)
    with (reconcile B D1).
  fold (items_of (reconcile B D1)).
  rewrite reconcile_items, merge_items_append.
  unfold reconcile. rewrite spread_obj. by rewrite insert_insert_eq.
Qed.

(** X3.  A base item whose non-empty name no incoming item carries is kept
    as it is: the result holds, for that name, the last base item of the
    name and nothing else. *)
Theorem reconcile_keeps_unmentioned (B : value) (D : list value) (n : string) :
  n ≠ "" →
  n ∉ names_of D →
  named n (items_of (reconcile (Some B) D))
  = option_list (last (named n (items_of B))).
Proof.
  intros Hn HD.
  rewrite reconcile_named, items_of_coalesce, merge_items_get_base by done.
  by destruct (last _).
Qed.

(** X4.  With no persisted cart yet ([null] or [undefined]), incoming items
    that all carry a non-empty name, no two the same, become the cart as
    they are: the result is [{ items: incomingItems }]. *)
Theorem reconcile_first_load (B : option value) (D : list value) :
  nullish B = true →
  valid_items D →
  reconcile B D = cart_of D.
Proof.
  intros HB [Hkeys Hnd]%valid_items_keys.
  assert (coalesce B createDefaultCartState = createDefaultCartState) as Hbase.
  { by destruct B as [[]|]. }
  unfold reconcile. cbv zeta. rewrite Hbase. unfold merge_items. simpl.
  rewrite merge_all_fresh by done. unfold cart_of.
  by rewrite insert_singleton_eq.
Qed.

(** ** The quantity adjuster (lines 65-96) *)

Section adjust_more.
Implicit Types (C : obj) (n : string) (d : Z) (l : list value).

Lemma omap_sublist {A B} (f : A → option B) (l1 l2 : list A) :
  l1 `sublist_of` l2 → omap f l1 `sublist_of` omap f l2.
Proof.
  induction 1 as [|x l1 l2 _ IH|x l1 l2 _ IH]; csimpl.
  - constructor.
  - destruct (f x); [by constructor | done].
  - destruct (f x); [by constructor | done].
Qed.

Lemma omap_insert_same {A B} (f : A → option B) (l : list A) i x y :
  l !! i = Some x → f y = f x → omap f (<[i:=y]> l) = omap f l.
Proof.
  revert i. induction l as [|z l IH]; intros [|i] Hi Hf; try done; csimpl.
  - injection Hi as ->. by rewrite Hf.
  - by rewrite (IH i).
Qed.

Lemma item_name_copy (item : value) : item_name (copy item) = item_name item.
Proof.
  unfold item_name, copy.
  change (prop "name" (Some (VObj (spread (Some item)))))
    with (spread (Some item) !! "name").
  by rewrite spread_prop by apply not_index_name.
Qed.

Lemma names_of_copies l : names_of (copy <$> l) = names_of l.
Proof.
  unfold names_of. induction l as [|x l IH]; [done|]. csimpl.
  by rewrite item_name_copy, IH.
Qed.

Lemma item_name_quantity (cur : obj) (q : Z) :
  item_name (VObj (<["quantity" := VNum q]> cur)) = item_name (VObj cur).
Proof. unfold item_name. simpl. by rewrite lookup_insert_ne. Qed.

(** The updater on a cart without an item of the name. *)
Lemma adjust_update_missing (base : value) n d :
  n ∉ names_of (items_of base) → base ≠ VNull →
  adjust_update n d (Some base) = base.
Proof.
  intros Hn Hbase. unfold adjust_update. cbv zeta.
  assert (coalesce (Some base) (VObj ∅) = base) as -> by by destruct base.
  fold (items_of base). by rewrite find_named_none.
Qed.

(** The updater on a cart whose first item of the name is [cur]. *)
Lemma adjust_update_found C n d l1 (cur : obj) l2 :
  items_of (VObj C) = l1 ++ VObj cur :: l2 →
  n ∉ names_of l1 →
  item_name (VObj cur) = Some n →
  adjust_update n d (Some (VObj C))
  = VObj (<["items" :=
             VArr ((copy <$> l1)
                   ++ (if decide (Z.max 0 (quantity_or_zero cur + d) = 0) then []
                       else [VObj (<["quantity" :=
                                      VNum (Z.max 0 (quantity_or_zero cur + d))]> cur)])
                   ++ (copy <$> l2))]> C).
Proof.
  intros Hitems Hl1 Hcur. unfold adjust_update. cbv zeta.
  change (coalesce (Some (VObj C)) (VObj ∅)) with (VObj C).
  fold (items_of (VObj C)). rewrite Hitems, find_named_some by done.
  rewrite spread_obj. do 3 f_equal.
  rewrite fmap_app, fmap_cons. change (spread (Some (VObj cur))) with cur.
  rewrite <- (length_fmap (λ item, spread (Some item)) l1).
  destruct (decide (Z.max 0 (quantity_or_zero cur + d) = 0)) as [Hq|Hq].
  - apply Z.eqb_eq in Hq as ->. rewrite delete_middle.
    by rewrite fmap_app, <- !list_fmap_compose.
  - apply Z.eqb_neq in Hq as ->. rewrite insert_middle.
    by rewrite fmap_app, fmap_cons, <- !list_fmap_compose.
Qed.

Lemma items_of_insert (m : obj) l : items_of (VObj (<["items" := VArr l]> m)) = l.
Proof. unfold items_of. simpl. by rewrite lookup_insert_eq. Qed.

Lemma copy_copies l : copy <$> (copy <$> l) = copy <$> l.
Proof. rewrite <- list_fmap_compose. by apply list_fmap_ext. Qed.

Lemma copy_objects (os : list obj) : copy <$> (VObj <$> os) = VObj <$> os.
Proof. rewrite <- list_fmap_compose. by apply list_fmap_ext. Qed.

Lemma valid_items_objects l : valid_items l → copy <$> l = l.
Proof.
  intros [Hall _]. induction Hall as [|x l (k & Hk & _) _ IH]; [done|].
  csimpl. rewrite IH. f_equal. unfold item_name in Hk. by destruct x.
Qed.

End adjust_more.

(** X5.  The updater of [adjustQuantity] leaves every top-level field of the
    cart other than [items] as it is. *)
Theorem adjust_frame (C : obj) (n : string) (d : Z) (f : string) :
  f ≠ "items" →
  prop f (Some (adjust_update n d (Some (VObj C)))) = C !! f.
Proof.
  intros Hf. unfold adjust_update. cbv zeta.
  change (coalesce (Some (VObj C)) (VObj ∅)) with (VObj C).
  destruct (list_find _ _) as [[idx cur]|]; [|done].
  simpl. by rewrite lookup_insert_ne.
Qed.

Lemma adjustQuantity_Some (n : string) (d : Z) (update : option value → value) :
  adjustQuantity n d = Some update → update = adjust_update n d.
Proof. unfold adjustQuantity. destruct (_ || _); [done|]. by intros [= <-]. Qed.

(** X6.  Two adjustments of the same item compose.  Quantities and deltas
    are integers that JavaScript numbers hold exactly, and so are the sums
    the code forms.  When the first adjustment leaves the item in the cart
    (its quantity stays above 0), the update issued for [d2] applied after
    the update issued for [d1] gives what the update issued for [d1 + d2]
    gives. *)
Theorem adjust_compose (C : obj) (n : string) (d1 d2 : Z)
    (u1 u2 u12 : option value → value)
    (l1 : list value) (cur : obj) (l2 : list value) :
  adjustQuantity n d1 = Some u1 →
  adjustQuantity n d2 = Some u2 →
  adjustQuantity n (d1 + d2) = Some u12 →
  items_of (VObj C) = l1 ++ VObj cur :: l2 →
  n ∉ names_of l1 →
  item_name (VObj cur) = Some n →
  safe_integer (quantity_or_zero cur) →
  safe_integer d1 →
  safe_integer d2 →
  safe_integer (d1 + d2) →
  safe_integer (quantity_or_zero cur + d1) →
  safe_integer (quantity_or_zero cur + d1 + d2) →
  0 < quantity_or_zero cur + d1 →
  u2 (Some (u1 (Some (VObj C)))) = u12 (Some (VObj C)).
Proof.
  intros ->%adjustQuantity_Some ->%adjustQuantity_Some ->%adjustQuantity_Some.
  intros Hitems Hl1 Hcur _ _ _ _ _ _ Hpos.
  rewrite (adjust_update_found C n d1 l1 cur l2) by done.
  rewrite (adjust_update_found C n (d1 + d2) l1 cur l2) by done.
  rewrite decide_False by lia.
  set (q1 := Z.max 0 (quantity_or_zero cur + d1)).
  rewrite (adjust_update_found _ n d2 (copy <$> l1)
             (<["quantity" := VNum q1]> cur) (copy <$> l2)).
  - rewrite insert_insert_eq, !copy_copies, insert_insert_eq.
    assert (quantity_or_zero (<["quantity" := VNum q1]> cur) = q1) as ->.
    { unfold quantity_or_zero. by rewrite lookup_insert_eq. }
    by replace (Z.max 0 (q1 + d2))
      with (Z.max 0 (quantity_or_zero cur + (d1 + d2))) by lia.
  - unfold items_of. simpl. by rewrite lookup_insert_eq.
  - by rewrite names_of_copies.
  - by rewrite item_name_quantity.
Qed.

(** X7.  An adjustment and its opposite cancel.  In a cart whose items are
    objects, for an item whose quantity [q > 0] and a delta [d] that are
    integers JavaScript numbers hold exactly, as is [q + d], when the first
    adjustment leaves the item in the cart the update issued for [d]
    followed by the update issued for [-d] gives the cart back. *)
Theorem adjust_round_trip (C : obj) (n : string) (d q : Z)
    (u1 u2 : option value → value)
    (l1 : list obj) (cur : obj) (l2 : list obj) :
  adjustQuantity n d = Some u1 →
  adjustQuantity n (- d) = Some u2 →
  C !! "items" = Some (VArr ((VObj <$> l1) ++ VObj cur :: (VObj <$> l2))) →
  n ∉ names_of (VObj <$> l1) →
  item_name (VObj cur) = Some n →
  cur !! "quantity" = Some (VNum q) →
  safe_integer q →
  safe_integer d →
  safe_integer (q + d) →
  0 < q →
  0 < q + d →
  u2 (Some (u1 (Some (VObj C)))) = VObj C.
Proof.
  intros ->%adjustQuantity_Some ->%adjustQuantity_Some.
  intros HC Hl1 Hcur Hq _ _ _ Hpos Hpos'.
  assert (quantity_or_zero cur = q) as Hqz.
  { unfold quantity_or_zero. by rewrite Hq. }
  rewrite (adjust_update_found C n d (VObj <$> l1) cur (VObj <$> l2));
    [|unfold items_of; simpl; by rewrite HC|done..].
  rewrite Hqz, decide_False by lia.
  rewrite (adjust_update_found _ n (- d) (copy <$> (VObj <$> l1))
             (<["quantity" := VNum (Z.max 0 (q + d))]> cur)
             (copy <$> (VObj <$> l2))).
  - assert (quantity_or_zero (<["quantity" := VNum (Z.max 0 (q + d))]> cur)
            = Z.max 0 (q + d)) as ->.
    { unfold quantity_or_zero. by rewrite lookup_insert_eq. }
    rewrite decide_False by lia.
    replace (Z.max 0 (Z.max 0 (q + d) + - d)) with q by lia.
    rewrite !insert_insert_eq, !copy_copies, !copy_objects.
    by rewrite (insert_id cur), (insert_id C).
  - unfold items_of. simpl. by rewrite lookup_insert_eq.
  - by rewrite names_of_copies.
  - by rewrite item_name_quantity.
Qed.

(** X8.  The updater keeps the cart well formed: when the items of the cart
    all carry a non-empty name, no two the same, so do the items of the
    cart it returns. *)
Theorem adjust_preserves_valid_items (C : value) (n : string) (d : Z) :
  valid_items (items_of C) →
  valid_items (items_of (adjust_update n d (Some C))).
Proof.
  intros HC.
  assert (items_of (coalesce (Some C) (VObj ∅)) = items_of C) as Hitems
    by by destruct C.
  unfold adjust_update. cbv zeta. fold (items_of (coalesce (Some C) (VObj ∅))).
  rewrite Hitems.
  destruct (list_find _ _) as [[idx cur]|] eqn:Hfind; [|by rewrite Hitems].
  apply list_find_Some in Hfind as (Hidx & _ & _).
  rewrite items_of_insert.
  assert (VObj <$> ((λ item, spread (Some item)) <$> items_of C) = items_of C)
    as Hcopies.
  { rewrite <- list_fmap_compose. by apply (valid_items_objects (items_of C)). }
  assert (items_of C !! idx = Some (VObj cur)) as Hcur.
  { rewrite <- Hcopies, list_lookup_fmap, Hidx. done. }
  destruct HC as [Hall Hnd].
  destruct (Z.max 0 (quantity_or_zero cur + d) =? 0).
  - rewrite list_fmap_delete, Hcopies. split; [by apply Forall_delete|].
    eapply sublist_NoDup; [done|]. apply omap_sublist, sublist_delete.
  - rewrite list_fmap_insert, Hcopies. split.
    + apply Forall_insert; [done|]. rewrite item_name_quantity.
      by apply (Forall_lookup_1 _ _ _ _ Hall Hcur).
    + unfold names_of. erewrite omap_insert_same; [done..|].
      apply item_name_quantity.
Qed.

(** ** The change-detection guard (lines 98-122) *)

Lemma null_or_not (t : value) : t = VNull ∨ t ≠ VNull.
Proof. destruct t; by (left + right). Qed.

(** X9.  One run of the effect calls [setCartState] exactly when it changes
    the remembered fingerprint. *)
Theorem write_iff_fingerprint_changes (JSON_stringify : value → option string)
    (ref : string) (toolOutput widgetState : option value) :
  is_Some (effect JSON_stringify ref toolOutput widgetState).2
  ↔ (effect JSON_stringify ref toolOutput widgetState).1 ≠ ref.
Proof.
  destruct toolOutput as [t|]; [|simpl; split; [by intros [? ?]|done]].
  destruct (null_or_not t) as [->|Ht].
  { simpl. split; [by intros [? ?]|done]. }
  rewrite effect_payload by done.
  destruct (String.eqb_spec (serializedToolOutput JSON_stringify t) ref); simpl.
  - split; [by intros [? ?]|done].
  - split; [done | by eexists].
Qed.

(** X10.  A [null] or [undefined] tool output neither writes nor forgets:
    when it comes between two deliveries of the same payload, the second of
    them is still suppressed. *)
Theorem nullish_output_keeps_guard (JSON_stringify : value → option string)
    (ref : string) (t : value) (o w1 w2 w3 : option value) :
  nullish o = true →
  let r1 := (effect JSON_stringify ref (Some t) w1).1 in
  effect JSON_stringify r1 o w2 = (r1, None)
  ∧ effect JSON_stringify r1 (Some t) w3 = (r1, None).
Proof.
  intros Ho r1. split.
  - by destruct o as [[]|].
  - destruct (null_or_not t) as [->|Ht]; [done|].
    unfold r1. rewrite !effect_payload by done.
    destruct (String.eqb_spec (serializedToolOutput JSON_stringify t) ref)
      as [Heq|Hne]; simpl.
    + by rewrite Heq, String.eqb_refl.
    + by rewrite String.eqb_refl.
Qed.

(** X11.  Payloads that cannot be serialized share one fingerprint: after
    one of them has been delivered, another one, whatever it contains, is
    not merged. *)
Theorem unserializable_outputs_collide (JSON_stringify : value → option string)
    (ref : string) (t t' : value) (w1 w2 : option value) :
  t ≠ VNull →
  JSON_stringify t = None →
  JSON_stringify t' = None →
  let r1 := (effect JSON_stringify ref (Some t) w1).1 in
  r1 = "__tool_output_error__"
  ∧ effect JSON_stringify r1 (Some t') w2 = (r1, None).
Proof.
  intros Ht HJ HJ' r1.
  assert (serializedToolOutput JSON_stringify t = "__tool_output_error__") as Hs
    by (unfold serializedToolOutput; by rewrite HJ).
  assert (serializedToolOutput JSON_stringify t' = "__tool_output_error__") as Hs'
    by (unfold serializedToolOutput; by rewrite HJ').
  assert (r1 = "__tool_output_error__") as ->.
  { unfold r1. rewrite effect_payload, Hs by done.
    by destruct (String.eqb_spec "__tool_output_error__" ref). }
  split; [done|].
  destruct (null_or_not t') as [->|Ht']; [done|].
  by rewrite effect_payload, Hs', String.eqb_refl.
Qed.

(** X12.  Only the last fingerprint is remembered: when a payload comes
    back after a different one, it is merged and written again. *)
Theorem repeated_output_after_another (JSON_stringify : value → option string)
    (ref : string) (t t' : value) (w1 w2 w3 : option value) :
  t ≠ VNull →
  t' ≠ VNull →
  serializedToolOutput JSON_stringify t' ≠ serializedToolOutput JSON_stringify t →
  let r1 := (effect JSON_stringify ref (Some t) w1).1 in
  let r2 := (effect JSON_stringify r1 (Some t') w2).1 in
  effect JSON_stringify r2 (Some t) w3
  = (serializedToolOutput JSON_stringify t,
     Some (reconcile w3 (incomingItems t))).
Proof.
  intros Ht Ht' Hne r1 r2.
  assert (r1 = serializedToolOutput JSON_stringify t) as Hr1.
  { unfold r1. rewrite effect_payload by done.
    by destruct (String.eqb_spec (serializedToolOutput JSON_stringify t) ref). }
  assert (r2 = serializedToolOutput JSON_stringify t') as Hr2.
  { unfold r2. rewrite effect_payload, Hr1 by done.
    by destruct (String.eqb_spec (serializedToolOutput JSON_stringify t')
                   (serializedToolOutput JSON_stringify t)). }
  rewrite Hr2, effect_payload by done.
  destruct (String.eqb_spec (serializedToolOutput JSON_stringify t)
              (serializedToolOutput JSON_stringify t')); [congruence|done].
Qed.

(** ** Local edits and deltas on different items *)

Section commute.
Implicit Types (m : jsmap) (k n : string) (l : list value).

Lemma map_get_app k m1 m2 :
  map_get k (m1 ++ m2)
  = match map_get k m1 with Some v => Some v | None => map_get k m2 end.
Proof.
  induction m1 as [|[k0 v0] m1 IH]; [done|]. simpl. by case_decide.
Qed.

Lemma map_get_fresh k m : k ∉ m.*1 → map_get k m = None.
Proof. apply map_get_None. Qed.

Lemma keys_of_app l1 l2 : keys_of (l1 ++ l2) = keys_of l1 ++ keys_of l2.
Proof. apply omap_app. Qed.

Lemma names_of_app l1 l2 : names_of (l1 ++ l2) = names_of l1 ++ names_of l2.
Proof. apply omap_app. Qed.

Lemma keys_of_not_named n l : n ∉ names_of l → n ∉ keys_of l.
Proof. intros Hn [? _]%keys_of_elem. done. Qed.

Lemma with_key_app k l1 l2 : with_key k (l1 ++ l2) = with_key k l1 ++ with_key k l2.
Proof. apply filter_app. Qed.

Lemma with_key_absent k l : k ∉ keys_of l → with_key k l = [].
Proof. apply with_key_nil. Qed.

Lemma with_key_one k item n :
  name_key item = Some n →
  with_key k [item] = if decide (n = k) then [item] else [].
Proof.
  intros Hn. unfold with_key. rewrite filter_cons, filter_nil, Hn.
  destruct (decide (n = k)) as [->|Hne].
  - by rewrite decide_True.
  - rewrite decide_False; [done | congruence].
Qed.

Lemma keyed_app m1 m2 : keyed (m1 ++ m2) → keyed m1 ∧ keyed m2.
Proof.
  intros Hm. split; intros k v Hin; apply Hm, elem_of_app; by (left + right).
Qed.

Lemma keyed_cons k v m : keyed ((k, v) :: m) → name_key v = Some k ∧ keyed m.
Proof.
  intros Hm. split; [apply Hm, list_elem_of_here|].
  intros k' v' Hin. by apply Hm, list_elem_of_further.
Qed.

Lemma filter_out n (l1 l2 : list string) :
  n ∉ l1 → n ∉ l2 → filter (λ y, y ≠ n) (l1 ++ n :: l2) = l1 ++ l2.
Proof.
  intros H1 H2. rewrite filter_app, filter_cons, decide_False by naive_solver.
  rewrite !filter_all; [done|by apply Forall_forall; intros x Hx ->..].
Qed.

End commute.

Section commute_merge.
Implicit Types (m : jsmap) (k n : string) (l D : list value).

Lemma merge_items_get_any l D k :
  map_get k (merge_items l D)
  = match with_key k D with
    | [] => last (with_key k l)
    | ds => Some (VObj (merge_all (spread (last (with_key k l))) ds))
    end.
Proof.
  unfold merge_items. rewrite merge_get, seed_get. simpl.
  by destruct (last (with_key k l)).
Qed.

(** Replacing or removing, in a well-formed base, an item whose name no
    incoming item carries replaces or removes its entry in the merged map
    and changes nothing else. *)
Lemma merge_items_adjusted l1 (cur : obj) l2 D n (ox : option value) :
  valid_items (l1 ++ VObj cur :: l2) →
  item_name (VObj cur) = Some n →
  n ∉ names_of D →
  (∀ x, ox = Some x → name_key x = Some n) →
  ∃ M1 M2,
    merge_items (l1 ++ VObj cur :: l2) D = M1 ++ (n, VObj cur) :: M2
    ∧ (n ∉ M1.*1)
    ∧ merge_items (l1 ++ option_list ox ++ l2) D
      = M1 ++ option_list ((λ x, (n, x)) <$> ox) ++ M2.
Proof.
  intros [Hall Hnd] Hcur HD Hox.
  assert (n ≠ "") as Hn.
  { apply Forall_app in Hall as [_ [(n' & Hn' & Hne) _]%Forall_cons].
    congruence. }
  assert (name_key (VObj cur) = Some n) as Hkey by by apply name_key_item_name.
  rewrite names_of_app in Hnd. unfold names_of at 2 in Hnd. csimpl in Hnd.
  rewrite Hcur in Hnd. csimpl in Hnd. fold (names_of l2) in Hnd.
  apply NoDup_app in Hnd as (_ & Hl1 & [Hl2 _]%NoDup_cons).
  assert (n ∉ names_of l1) as Hn1.
  { intros Hin. apply (Hl1 n Hin), list_elem_of_here. }
  pose proof (keys_of_not_named _ _ Hn1) as Hk1.
  pose proof (keys_of_not_named _ _ Hl2) as Hk2.
  pose proof (keys_of_not_named _ _ HD) as HkD.
  set (M := merge_items (l1 ++ VObj cur :: l2) D).
  assert (map_get n M = Some (VObj cur)) as Hget.
  { unfold M. rewrite merge_items_get_any, (with_key_absent n D) by done.
    rewrite with_key_app, (with_key_absent n l1) by done.
    change (VObj cur :: l2) with ([VObj cur] ++ l2).
    rewrite with_key_app, (with_key_one n _ n), decide_True by done.
    by rewrite (with_key_absent n l2). }
  apply map_get_elem, list_elem_of_split in Hget as (M1 & M2 & HM).
  pose proof (merge_items_NoDup (l1 ++ VObj cur :: l2) D) as HndM.
  fold M in HndM. rewrite HM, fmap_app, fmap_cons in HndM. simpl in HndM.
  apply NoDup_app in HndM as (_ & HM1 & [HM2 _]%NoDup_cons).
  assert (n ∉ M1.*1) as HnM1.
  { intros Hin. apply (HM1 n Hin), list_elem_of_here. }
  exists M1, M2. split_and!; [done..|].
  assert (keys_of (l1 ++ VObj cur :: l2) = keys_of l1 ++ n :: keys_of l2) as HkI.
  { rewrite keys_of_app. unfold keys_of at 2. csimpl. by rewrite Hkey. }
  assert (M1.*1 ++ n :: M2.*1
          = first_occurrences ((keys_of l1 ++ n :: keys_of l2) ++ keys_of D))
    as HkM.
  { rewrite <- HkI, <- merge_items_keys. fold M. by rewrite HM, fmap_app. }
  apply jsmap_ext; [apply merge_items_NoDup| |].
  - rewrite merge_items_keys, !fmap_app, !keys_of_app.
    destruct ox as [x|]; simpl.
    + unfold keys_of at 2. csimpl. rewrite (Hox x) by done. csimpl.
      by rewrite HkM.
    + rewrite <- (filter_out n M1.*1 M2.*1), HkM by done.
      rewrite <- first_occurrences_filter, filter_app, filter_out by done.
      rewrite (filter_all _ (keys_of D)); [done|].
      apply Forall_forall. by intros y Hy ->.
  - intros k. rewrite merge_items_get_any, !with_key_app.
    destruct (decide (k = n)) as [->|Hne].
    + rewrite (with_key_absent n D), (with_key_absent n l1),
        (with_key_absent n l2), app_nil_r by done. simpl.
      rewrite map_get_app, (map_get_fresh n M1), map_get_app by done.
      destruct ox as [x|]; simpl.
      * rewrite (with_key_one n x n), !decide_True by eauto. done.
      * symmetry. by apply map_get_fresh.
    + assert (with_key k (option_list ox) = []) as ->.
      { destruct ox as [x|]; [|done]. simpl.
        rewrite (with_key_one k x n), decide_False by eauto. done. }
      assert (map_get k (M1 ++ option_list ((λ x, (n, x)) <$> ox) ++ M2)
              = map_get k M) as ->.
      { rewrite HM, !map_get_app. destruct (map_get k M1); [done|].
        simpl. rewrite decide_False by done.
        destruct ox as [x|]; simpl; [by rewrite decide_False|done]. }
      unfold M. rewrite merge_items_get_any, with_key_app.
      change (VObj cur :: l2) with ([VObj cur] ++ l2).
      rewrite with_key_app, (with_key_one k _ n), decide_False by done.
      done.
Qed.

End commute_merge.

Lemma reconcile_obj (C : obj) (items D : list value) :
  C !! "items" = Some (VArr items) →
  reconcile (Some (VObj C)) D
  = VObj (<["items" := VArr (map_values (merge_items items D))]> C).
Proof. intros HC. unfold reconcile. simpl. by rewrite HC. Qed.

Lemma copy_named (l : list value) :
  Forall (λ item, is_Some (item_name item)) l → copy <$> l = l.
Proof.
  induction 1 as [|x l [k Hk] _ IH]; [done|].
  csimpl. rewrite IH. f_equal. unfold item_name in Hk. by destruct x.
Qed.

Lemma keyed_named (m : jsmap) :
  keyed m → Forall (λ item, is_Some (item_name item)) (map_values m).
Proof.
  intros Hm. apply Forall_fmap, Forall_forall. intros [k v] Hin. exists k.
  by apply name_key_item_name, Hm.
Qed.

(** X13.  A local edit and a delta on other items commute: in a well-formed
    cart, when no incoming item carries the name [n], running the updater
    for [n] on the merged cart gives what merging into the updated cart
    gives. *)
Theorem adjust_reconcile_commute
    (C : obj) (items D : list value) (n : string) (d : Z) :
  C !! "items" = Some (VArr items) →
  valid_items items →
  n ∉ names_of D →
  adjust_update n d (Some (reconcile (Some (VObj C)) D))
  = reconcile (Some (adjust_update n d (Some (VObj C)))) D.
Proof.
  intros HC Hvalid HD.
  assert (items_of (VObj C) = items) as Hitems.
  { unfold items_of. simpl. by rewrite HC. }
  destruct (decide (n ∈ names_of items)) as [Hin|Hnin].
  - apply list_elem_of_omap in Hin as (x & Hx & Hname).
    apply list_elem_of_split in Hx as (l1 & l2 & ->).
    assert (∃ cur, x = VObj cur) as [cur ->].
    { unfold item_name in Hname. destruct x; try done. by eexists. }
    set (q := Z.max 0 (quantity_or_zero cur + d)).
    set (ox := if decide (q = 0) then None
               else Some (VObj (<["quantity" := VNum q]> cur))).
    assert (∀ x, ox = Some x → name_key x = Some n) as Hox.
    { unfold ox. intros x. destruct (decide (q = 0)); [done|]. intros [= <-].
      apply name_key_item_name. rewrite item_name_quantity. split; [done|].
      destruct Hvalid as [Hall _].
      apply Forall_app in Hall as [_ [(n' & Hn' & Hne) _]%Forall_cons].
      congruence. }
    destruct (merge_items_adjusted l1 cur l2 D n ox Hvalid Hname HD Hox)
      as (M1 & M2 & HM & HnM1 & HM').
    pose proof (merge_items_keyed (l1 ++ VObj cur :: l2) D) as Hkeyed.
    rewrite HM in Hkeyed.
    apply keyed_app in Hkeyed as [Hk1 [_ Hk2]%keyed_cons].
    assert (n ∉ names_of l1) as Hn1.
    { destruct Hvalid as [_ Hnd]. rewrite names_of_app in Hnd.
      unfold names_of at 2 in Hnd. csimpl in Hnd. rewrite Hname in Hnd.
      apply NoDup_app in Hnd as (_ & Hl1 & _).
      intros Hin. apply (Hl1 n Hin), list_elem_of_here. }
    assert ((if decide (q = 0) then []
             else [VObj (<["quantity" := VNum q]> cur)]) = option_list ox) as HX.
    { unfold ox. by destruct (decide (q = 0)). }
    destruct Hvalid as [Hall _]. apply Forall_app in Hall as [Hall1 Hall2].
    apply Forall_cons in Hall2 as [_ Hall2].
    rewrite (reconcile_obj C _ D HC), HM.
    unfold map_values. rewrite fmap_app, fmap_cons. simpl.
    rewrite (adjust_update_found _ n d (M1.*2) cur (M2.*2));
      [|by rewrite items_of_insert
       |change (M1.*2) with (map_values M1); by rewrite keyed_names_of
       |done].
    rewrite (adjust_update_found C n d l1 cur l2) by done.
    fold q. rewrite HX.
    rewrite (reconcile_obj _ ((copy <$> l1) ++ option_list ox ++ (copy <$> l2)) D)
      by by rewrite lookup_insert_eq.
    rewrite !insert_insert_eq. do 3 f_equal.
    rewrite (copy_named l1), (copy_named l2), HM'.
    + rewrite (copy_named M1.*2), (copy_named M2.*2) by by apply keyed_named.
      unfold map_values. rewrite !fmap_app. by destruct ox.
    + eapply Forall_impl; [done|]. intros y (k & Hk & _). by exists k.
    + eapply Forall_impl; [done|]. intros y (k & Hk & _). by exists k.
  - rewrite (adjust_update_missing (VObj C)); [|by rewrite Hitems|done].
    apply adjust_update_missing; [|done].
    rewrite reconcile_names. simpl. rewrite Hitems.
    rewrite first_occurrences_elem, elem_of_app, !keys_of_elem. naive_solver.
Qed.

(** ** The controls of the rendered items (lines 63, 165-196) *)



(** ** Instances of the further properties *)

Ltac compute_valid_items :=
  split;
  [ repeat (apply Forall_cons; split;
            [eexists; split; [vm_compute; reflexivity | done]|]);
    apply Forall_nil_2
  | apply (bool_decide_unpack _); vm_compute; exact I ].

Ltac compute_not_elem :=
  let H := fresh in
  intros H%list_elem_of_In; vm_compute in H; intuition discriminate.

Ltac compute_safe_integer :=
  unfold safe_integer; vm_compute; split; discriminate.

Ltac compute_typed_names :=
  vm_compute;
  repeat (constructor;
          [let H := fresh in
           intros H; first [discriminate H | eexists; reflexivity]|]);
  constructor.

Lemma reconcile_normalizes_witness :
  let B := cart_of [line "a" 1; line "a" 2; VObj {[ "quantity" := VNum 5 ]};
                    line "" 3] in
  let D := [line "b" 1; VNull; line "b" 4] in
  prop "items" (Some (reconcile (Some B) D))
  = Some (VArr (items_of (reconcile (Some B) D)))
  ∧ valid_items (items_of (reconcile (Some B) D)).
Proof.
  intros B D. apply (reconcile_normalizes (Some B) D).
  - compute_typed_names.
  - compute_typed_names.
Defined.

(** What that merge gives. *)
Example reconcile_normalizes_example :
  reconcile
    (Some (cart_of [line "a" 1; line "a" 2; VObj {[ "quantity" := VNum 5 ]};
                    line "" 3]))
    [line "b" 1; VNull; line "b" 4]
  = cart_of [line "a" 2; line "b" 4].
Proof. vm_compute. reflexivity. Qed.

Lemma reconcile_keeps_unmentioned_witness :
  let B := cart_of [line "milk" 2; line "eggs" 6] in
  let D := [line "milk" 5] in
  named "eggs" (items_of (reconcile (Some B) D))
  = option_list (last (named "eggs" (items_of B))).
Proof.
  intros B D. apply (reconcile_keeps_unmentioned B D "eggs").
  - done.
  - compute_not_elem.
Defined.

Lemma reconcile_first_load_witness :
  reconcile None [line "milk" 5; line "bread" 1]
  = cart_of [line "milk" 5; line "bread" 1].
Proof.
  apply (reconcile_first_load None [line "milk" 5; line "bread" 1]).
  - reflexivity.
  - compute_valid_items.
Defined.

Lemma adjust_frame_witness :
  let C : obj := {[ "items" := VArr [line "apple" 1]; "cartId" := VStr "c1" ]} in
  prop "cartId" (Some (adjust_update "apple" 2 (Some (VObj C)))) = C !! "cartId".
Proof.
  intros C. apply (adjust_frame C "apple" 2 "cartId"). done.
Defined.

Lemma adjust_compose_witness :
  let C : obj := {[ "items" := VArr [line "pear" 4; line "apple" 1] ]} in
  adjust_update "apple" (-1) (Some (adjust_update "apple" 2 (Some (VObj C))))
  = adjust_update "apple" 1 (Some (VObj C)).
Proof.
  intros C.
  apply (adjust_compose C "apple" 2 (-1) _ _ _
           [line "pear" 4] (line_fields "apple" 1) []).
  - reflexivity.
  - reflexivity.
  - reflexivity.
  - vm_compute. reflexivity.
  - compute_not_elem.
  - vm_compute. reflexivity.
  - compute_safe_integer.
  - compute_safe_integer.
  - compute_safe_integer.
  - compute_safe_integer.
  - compute_safe_integer.
  - compute_safe_integer.
  - vm_compute. reflexivity.
Defined.

Lemma adjust_round_trip_witness :
  let C : obj := {[ "items" := VArr [line "pear" 4; line "apple" 1] ]} in
  adjust_update "apple" (-1) (Some (adjust_update "apple" 1 (Some (VObj C))))
  = VObj C.
Proof.
  intros C.
  apply (adjust_round_trip C "apple" 1 1 _ _
           [line_fields "pear" 4] (line_fields "apple" 1) []).
  - reflexivity.
  - reflexivity.
  - vm_compute. reflexivity.
  - compute_not_elem.
  - vm_compute. reflexivity.
  - vm_compute. reflexivity.
  - compute_safe_integer.
  - compute_safe_integer.
  - compute_safe_integer.
  - vm_compute. reflexivity.
  - vm_compute. reflexivity.
Defined.

Lemma adjust_preserves_valid_items_witness :
  valid_items
    (items_of (adjust_update "bread" (-1)
                 (Some (cart_of [line "milk" 2; line "bread" 1])))).
Proof.
  apply (adjust_preserves_valid_items (cart_of [line "milk" 2; line "bread" 1])).
  assert (items_of (cart_of [line "milk" 2; line "bread" 1])
          = [line "milk" 2; line "bread" 1]) as -> by (vm_compute; reflexivity).
  compute_valid_items.
Defined.

Lemma nullish_output_keeps_guard_witness :
  let stringify := λ v, Some (to_json v) in
  let t := payload [line "milk" 5] in
  let r1 := (effect stringify tool_output_unset (Some t) None).1 in
  effect stringify r1 (Some VNull) (Some (cart_of [line "milk" 4])) = (r1, None)
  ∧ effect stringify r1 (Some t) (Some (cart_of [line "milk" 4])) = (r1, None).
Proof.
  intros stringify t.
  apply (nullish_output_keeps_guard stringify tool_output_unset t (Some VNull)).
  reflexivity.
Defined.

Lemma unserializable_outputs_collide_witness :
  let stringify := λ v : value, match v with VObj _ => None | _ => Some (to_json v) end in
  let t := payload [line "milk" 5] in
  let t' := payload [line "bread" 1] in
  let r1 := (effect stringify tool_output_unset (Some t) None).1 in
  r1 = "__tool_output_error__"
  ∧ effect stringify r1 (Some t') (Some (cart_of [line "milk" 5])) = (r1, None).
Proof.
  intros stringify t t'.
  apply (unserializable_outputs_collide stringify tool_output_unset t t').
  - done.
  - reflexivity.
  - reflexivity.
Defined.

Lemma repeated_output_after_another_witness :
  let stringify := λ v, Some (to_json v) in
  let t := payload [line "milk" 5] in
  let t' := payload [line "bread" 1] in
  let r1 := (effect stringify tool_output_unset (Some t) None).1 in
  let r2 := (effect stringify r1 (Some t') None).1 in
  effect stringify r2 (Some t) (Some (cart_of [line "milk" 1]))
  = (serializedToolOutput stringify t,
     Some (reconcile (Some (cart_of [line "milk" 1])) (incomingItems t))).
Proof.
  intros stringify t t'.
  apply (repeated_output_after_another stringify tool_output_unset t t').
  - done.
  - done.
  - intros Heq. vm_compute in Heq. discriminate Heq.
Defined.

Lemma adjust_reconcile_commute_witness :
  let C : obj := {[ "items" := VArr [line "milk" 2; line "eggs" 6] ]} in
  let D := [line "bread" 1; line "eggs" 12] in
  adjust_update "milk" (-1) (Some (reconcile (Some (VObj C)) D))
  = reconcile (Some (adjust_update "milk" (-1) (Some (VObj C)))) D.
Proof.
  intros C D.
  apply (adjust_reconcile_commute C [line "milk" 2; line "eggs" 6] D "milk" (-1)).
  - vm_compute. reflexivity.
  - compute_valid_items.
  - compute_not_elem.
Defined.


(** The two buttons on the scenario cart. *)
Example buttons_example :
  (∃ update, onDecrease (line_fields "bread" 1) = Some update
     ∧ cartItems (Some (update (Some (cart_of [line "milk" 2; line "bread" 1]))))
       = [line "milk" 2])
  ∧ (∃ update, onIncrease (line_fields "bread" 1) = Some update
       ∧ cartItems (Some (update (Some (cart_of [line "milk" 2; line "bread" 1]))))
         = [line "milk" 2; line "bread" 2]).
Proof. split; eexists; (split; [reflexivity | vm_compute; reflexivity]). Qed.

(** When an incoming item carries the edited name the two orders differ:
    the merge overrides the edited quantity, the edit adds to the merged
    one. *)
Example edit_and_delta_on_one_item :
  adjust_update "milk" (-1)
    (Some (reconcile (Some (cart_of [line "milk" 2])) [line "milk" 5]))
  = cart_of [line "milk" 4]
  ∧ reconcile (Some (adjust_update "milk" (-1) (Some (cart_of [line "milk" 2]))))
      [line "milk" 5]
    = cart_of [line "milk" 5].
Proof. split; vm_compute; reflexivity. Qed.
